(** * devteam: agent adapters, permission translation, MCP scoping,
      streaming prompt service and Codex normaliser

    A shallow embedding of the TypeScript sources and the properties the
    specification states about them, followed by the remaining operations
    of the adapters, the session context written to CLAUDE.md and the
    localStorage storage adapter with properties of their own.

    Conventions of the embedding.
    - A JavaScript string is a [string]; [undefined] / [null] / an absent
      optional field is [None].
    - Integer-valued JavaScript numbers (token counts, millisecond clocks,
      message counters) are [Z]; the embedding does not model IEEE rounding,
      [NaN] or infinities.
    - An [async] function that may reject is a function into a sum
      [Thrown + A]; [await] is the bind of that sum.
    - [Date.now()] / [new Date()] is an explicit clock reading passed in.
    - A [Map<string, V>] is a [gmap string V]; a [Set<string>] is a
      [gset string]. *)

From Stdlib Require Import ZArith List String Ascii Bool Lia DecimalString.
From stdpp Require Import gmap strings list.
Import ListNotations.

Local Open Scope string_scope.
Local Open Scope list_scope.
Local Open Scope Z_scope.

Set Warnings "-clear-no-such-hyp".

(** ** JavaScript values shared by all modules *)

Module Js.

(** An [Error] object: its [name], its [message] and its optional
    [cause]. *)
Inductive JsError : Type :=
  | mkError (name message : string)
  | mkErrorCause (name message : string) (cause : JsError).

Definition error_name (e : JsError) : string :=
  match e with mkError n _ | mkErrorCause n _ _ => n end.
Definition error_message (e : JsError) : string :=
  match e with mkError _ m | mkErrorCause _ m _ => m end.
Definition error_cause (e : JsError) : option JsError :=
  match e with mkError _ _ => None | mkErrorCause _ _ c => Some c end.

(** [new Error(msg)] *)
Definition new_Error (msg : string) : JsError := mkError "Error" msg.

(** Anything can be thrown: an [Error] instance or some other value, of
    which only [String(value)] is observed. *)
Inductive Thrown : Type :=
  | ThrownError (e : JsError)
  | ThrownOther (as_string : string).

(** The result of awaiting a promise. *)
Definition Result (A : Type) : Type := (Thrown + A)%type.

(** [hay.includes(needle)] *)
Fixpoint includes (needle hay : string) : bool :=
  String.prefix needle hay ||
  match hay with
  | EmptyString => false
  | String _ rest => includes needle rest
  end.

(** [x || 0] on an optional number: [undefined] and [0] are falsy. *)
Definition or0 (x : option Z) : Z :=
  match x with
  | Some v => if v =? 0 then 0 else v
  | None => 0
  end.

(** Template-literal rendering of an integer, [`${n}`]. *)
Definition string_of_Z (n : Z) : string :=
  DecimalString.NilZero.string_of_int (Z.to_int n).

(** [Math.round(ms / 1000)] for an integer [ms]: round half up. *)
Definition round_div_1000 (ms : Z) : Z := (ms + 500) / 1000.

(** Does the character occur in the string? *)
Fixpoint has_char (c : ascii) (s : string) : bool :=
  match s with
  | EmptyString => false
  | String d rest => Ascii.eqb c d || has_char c rest
  end.

End Js.

(** ** Permission-mode translation *)

Module Permission.

(** [PermissionMode] of core/types.ts: the unified enumeration. *)
Definition unified_modes : list string :=
  ["default"; "acceptEdits"; "bypassPermissions"; "plan";
   "ask"; "auto"; "on-failure"; "allow-all"].

(** *** Gemini: permission-mapper.ts *)

(** [Gemini.ApprovalMode] of the vendor SDK. The string value of each
    member is the one permission-mapper.test.ts asserts. *)
Inductive ApprovalMode : Type := DEFAULT | AUTO_EDIT | YOLO.

Definition ApprovalMode_value (m : ApprovalMode) : string :=
  match m with
  | DEFAULT => "default"
  | AUTO_EDIT => "autoEdit"
  | YOLO => "yolo"
  end.

Definition gemini_native_modes : list string := ["default"; "autoEdit"; "yolo"].

(** [getDefaultPermissionMode('gemini')] lives in the core package; the
    test suite pins its value to ['autoEdit']. *)
Definition GEMINI_DEFAULT_PERMISSION_MODE : string := "autoEdit".

(** The [case] labels of the [switch] in [mapPermissionMode]; [None] is
    the [default:] label. *)
Definition mapPermissionMode_case (permissionMode : option string)
  : option ApprovalMode :=
  match permissionMode with
  | None => None
  | Some s =>
      if String.eqb s "default" then Some DEFAULT
      else if String.eqb s "autoEdit" then Some AUTO_EDIT
      else if String.eqb s "yolo" then Some YOLO
      else if String.eqb s "ask" then Some DEFAULT
      else if String.eqb s "auto" then Some AUTO_EDIT
      else if String.eqb s "on-failure" then Some AUTO_EDIT
      else if String.eqb s "allow-all" then Some YOLO
      else None
  end.

(** [mapPermissionMode]: the [default:] label calls the function again on
    the configured default. The recursion is not structural, so the
    embedding counts the nested calls; [None] is a call that ran out of
    them. [dflt] is the module constant. *)
Fixpoint mapPermissionMode_fuel (dflt : string) (fuel : nat)
    (permissionMode : option string) : option ApprovalMode :=
  match mapPermissionMode_case permissionMode with
  | Some m => Some m
  | None =>
      match fuel with
      | O => None
      | S fuel' => mapPermissionMode_fuel dflt fuel' (Some dflt)
      end
  end.

Definition mapPermissionMode (permissionMode : option string)
  : option ApprovalMode :=
  mapPermissionMode_fuel GEMINI_DEFAULT_PERMISSION_MODE 1 permissionMode.

(** The translator seen as a map from mode strings to mode strings. *)
Definition gemini_translate (x : string) : option string :=
  ApprovalMode_value <$> mapPermissionMode (Some x).

(** The approval mode that auto-approves every operation. *)
Definition gemini_elevated (m : ApprovalMode) : bool :=
  match m with YOLO => true | _ => false end.

(** *** Claude Code: [translatePermissionMode] of claude-code-adapter *)

Record ClaudeFlags : Type := mkFlags {
  autoApprove : option bool;
  requirePlan : option bool;
  askForConfirmation : option bool
}.

Definition no_flags : ClaudeFlags := mkFlags None None None.

Definition translatePermissionMode (mode : string) : ClaudeFlags :=
  if String.eqb mode "auto" || String.eqb mode "allow-all"
     || String.eqb mode "bypassPermissions"
  then mkFlags (Some true) None None
  else if String.eqb mode "plan" then mkFlags None (Some true) None
  else if String.eqb mode "ask" then mkFlags None None (Some true)
  else if String.eqb mode "acceptEdits" then mkFlags (Some false) None (Some true)
  else no_flags.

(** [getConfig().defaultPermissionMode] of the Claude Code adapter. *)
Definition CLAUDE_DEFAULT_PERMISSION_MODE : string := "default".

Definition claude_elevated (f : ClaudeFlags) : bool :=
  match autoApprove f with Some true => true | _ => false end.

End Permission.

(** ** Agent adapters: claude-code-adapter and codex-adapter.ts *)

Module Adapter.
Import Js.

(** [SessionStatus] of core/types.ts *)
Inductive SessionStatus : Type := idle | running | completed | failed.

Record SessionConfig : Type := mkSessionConfig {
  id : string;
  agentType : string;
  permissionMode : string;
  parentSessionId : option string;
  worktreeId : option string
}.

Record SessionState : Type := mkSessionState {
  config : SessionConfig;
  status : SessionStatus;
  createdAt : Z;
  updatedAt : Z;
  taskIds : list string
}.

Inductive ResponseStatus : Type := success | error | partial.

Record AgentResponse : Type := mkAgentResponse {
  content : string;
  response_status : ResponseStatus;
  toolCalls : list string;
  filesModified : list string;
  metadata : list (string * string)
}.

(** Credentials are opaque to the adapters. *)
Definition AuthCredentials : Type := string.

(** [IAuthProvider], as far as the adapters call it. *)
Record IAuthProvider : Type := mkAuthProvider {
  getCredentials : Result AuthCredentials;
  validateCredentials : AuthCredentials -> Result bool
}.

(** The two adapter classes share their code up to the texts below. *)
Inductive AgentKind : Type := ClaudeCode | Codex.

Definition invalid_credentials_message (k : AgentKind) : string :=
  match k with
  | ClaudeCode => "Invalid Claude Code credentials"
  | Codex => "Invalid Codex credentials"
  end.

(** The private fields of an adapter instance. *)
Record AdapterState : Type := mkAdapter {
  sessions : gmap string SessionState;
  isInitialized : bool
}.

(** [session.status = s; session.updatedAt = new Date();
     this.sessions.set(sessionId, session)] *)
Definition touch_session (a : AdapterState) (sessionId : string)
    (session : SessionState) (s : SessionStatus) (now : Z) : AdapterState :=
  mkAdapter
    (<[sessionId := mkSessionState (config session) s (createdAt session) now
                      (taskIds session)]> (sessions a))
    (isInitialized a).

Definition session_not_found (sessionId : string) : Thrown :=
  ThrownError (new_Error ("Session " +:+ sessionId +:+ " not found")).

Definition initialize (k : AgentKind) (auth : IAuthProvider) (a : AdapterState)
  : AdapterState * Result unit :=
  if isInitialized a then (a, inr tt)
  else
    match getCredentials auth with
    | inl t => (a, inl t)
    | inr credentials =>
        match validateCredentials auth credentials with
        | inl t => (a, inl t)
        | inr false =>
            (a, inl (ThrownError (new_Error (invalid_credentials_message k))))
        | inr true => (mkAdapter (sessions a) true, inr tt)
        end
    end.

Section Execute.
(** The agent-specific call ([executeClaudeCodePrompt] /
    [executeCodexPrompt]) and the clock read by [new Date()]. *)
Variable k : AgentKind.
Variable executePrompt :
  SessionState -> string -> AuthCredentials -> Result AgentResponse.
Variable auth : IAuthProvider.
Variable now : Z.

(** The two awaited calls inside the [try] block. *)
Definition run_prompt (session : SessionState) (prompt : string)
  : Result AgentResponse :=
  match getCredentials auth with
  | inl t => inl t
  | inr credentials => executePrompt session prompt credentials
  end.

Definition execute (a : AdapterState) (sessionId prompt : string)
  : AdapterState * Result AgentResponse :=
  let '(a1, ready) :=
    if isInitialized a then (a, inr tt) else initialize k auth a in
  match ready with
  | inl t => (a1, inl t)
  | inr _ =>
      match sessions a1 !! sessionId with
      | None => (a1, inl (session_not_found sessionId))
      | Some session =>
          match run_prompt session prompt with
          | inr response =>
              (touch_session a1 sessionId session running now, inr response)
          | inl thrown =>
              (touch_session a1 sessionId session failed now, inl thrown)
          end
      end
  end.

Definition terminateSession (a : AdapterState) (sessionId : string)
  : AdapterState * Result unit :=
  match sessions a !! sessionId with
  | None => (a, inl (session_not_found sessionId))
  | Some session => (touch_session a sessionId session completed now, inr tt)
  end.

Definition createSession (a : AdapterState) (cfg : SessionConfig)
  : AdapterState * SessionState :=
  let state := mkSessionState cfg idle now now [] in
  (mkAdapter (<[id cfg := state]> (sessions a)) (isInitialized a), state).
End Execute.

(** The placeholder bodies the two classes ship with. *)
Definition executeClaudeCodePrompt (defaultModel : option string)
    (session : SessionState) (prompt : string) (credentials : AuthCredentials)
  : Result AgentResponse :=
  inr (mkAgentResponse "Response from Claude Code" success [] []
         [("model", default "sonnet" defaultModel);
          ("sessionId", id (config session))]).

Definition executeCodexPrompt
    (session : SessionState) (prompt : string) (credentials : AuthCredentials)
  : Result AgentResponse :=
  inr (mkAgentResponse "Response from Codex" success [] []
         [("sessionId", id (config session))]).

Definition ClaudeCodeAdapter_execute (defaultModel : option string) :=
  execute ClaudeCode (executeClaudeCodePrompt defaultModel).

Definition CodexAdapter_execute := execute Codex executeCodexPrompt.

(** What the specification promises about a failed turn: the raised value
    is an [ExecutionError] whose cause is the vendor's error. *)
Definition is_ExecutionError_wrapping (cause raised : Thrown) : Prop :=
  exists e c,
    raised = ThrownError e /\ error_name e = "ExecutionError" /\
    error_cause e = Some c /\ cause = ThrownError c.

(** What the specification promises after a successful turn: the session
    is back to [idle], or [completed]. *)
Definition settled_after_turn (a : AdapterState) (sessionId : string) : Prop :=
  exists st, sessions a !! sessionId = Some st /\
             (status st = idle \/ status st = completed).

(** Sample data. *)
Definition sample_config : SessionConfig :=
  mkSessionConfig "s1" "claude-code" "default" None None.

Definition sample_session : SessionState :=
  mkSessionState sample_config idle 1000 1000 [].

Definition sample_adapter : AdapterState :=
  mkAdapter {[ "s1" := sample_session ]} true.

Definition auth_ok : IAuthProvider :=
  mkAuthProvider (inr "token") (fun _ => inr true).

Definition keychain_locked : Thrown :=
  ThrownError (mkError "Error" "keychain locked").

Definition auth_failing : IAuthProvider :=
  mkAuthProvider (inl keychain_locked) (fun _ => inr true).

End Adapter.

(** ** Codex turn.completed normaliser: codex/normalizer.ts *)

Module CodexNormalizer.
Import Js.

Record CodexUsage : Type := mkUsage {
  input_tokens : option Z;
  output_tokens : option Z;
  cached_input_tokens : option Z;
  total_tokens : option Z
}.

Record CodexSdkResponse : Type := mkResponse {
  type : string;
  usage : option CodexUsage;
  model : option string
}.

Record TokenUsage : Type := mkTokenUsage {
  inputTokens : Z;
  outputTokens : Z;
  totalTokens : Z;
  cacheReadTokens : Z;
  cacheCreationTokens : Z
}.

Record NormalizedSdkData : Type := mkNormalized {
  tokenUsage : TokenUsage;
  contextWindowLimit : Z;
  primaryModel : string;
  durationMs : option Z
}.

Section Normalize.
(** codex/models.ts is not part of the extraction: its default model and
    its limit lookup are taken as they come. *)
Variable DEFAULT_CODEX_MODEL : string.
Variable getCodexContextWindowLimit : option string -> Z.

Definition normalize (event : CodexSdkResponse) : NormalizedSdkData :=
  match usage event with
  | None =>
      mkNormalized (mkTokenUsage 0 0 0 0 0)
        (getCodexContextWindowLimit (Some DEFAULT_CODEX_MODEL))
        DEFAULT_CODEX_MODEL None
  | Some u =>
      let inputTokens := or0 (input_tokens u) in
      let outputTokens := or0 (output_tokens u) in
      let cacheReadTokens := or0 (cached_input_tokens u) in
      let contextWindowLimit :=
        getCodexContextWindowLimit (Some DEFAULT_CODEX_MODEL) in
      mkNormalized
        (mkTokenUsage inputTokens outputTokens (inputTokens + outputTokens)
           cacheReadTokens 0)
        contextWindowLimit DEFAULT_CODEX_MODEL None
  end.
End Normalize.

End CodexNormalizer.

(** ** MCP server scoping: base/mcp-scoping.ts *)

Module Mcp.
Import Js.

Record MCPAuth : Type := mkAuth {
  token : option string;
  api_url : option string;
  api_token : option string;
  api_secret : option string
}.

Record MCPServer : Type := mkServer {
  mcp_server_id : string;
  name : string;
  transport : string;
  scope : string;
  enabled : bool;
  url : option string;
  env : option (list (string * string));
  auth : option MCPAuth
}.

Inductive Source : Type := session_assigned | global.

Record MCPServerWithSource : Type := mkWithSource {
  server : MCPServer;
  source : Source
}.

(** What [resolveMcpServerTemplates] hands back. *)
Record ResolveResult : Type := mkResolve {
  isValid : bool;
  resolved_server : MCPServer;
  unresolvedFields : list string;
  errorMessage : option string
}.

(** The two repositories, as far as the resolver calls them. *)
Record MCPServerRepository : Type := mkMcpRepo {
  findAll : string -> bool -> option string -> Result (option (list MCPServer))
}.

Record SessionMCPServerRepository : Type := mkSessionRepo {
  listServers : string -> bool -> Result (list MCPServer)
}.

Record MCPResolutionDeps : Type := mkDeps {
  sessionMCPRepo : option SessionMCPServerRepository;
  mcpServerRepo : option MCPServerRepository;
  forUserId : option string
}.

(** [v?.includes('{{') && v?.includes('}}')] *)
Definition containsTemplate (v : option string) : bool :=
  match v with
  | None => false
  | Some s => includes "{{" s && includes "}}" s
  end.

Definition hasTemplates (original : MCPServer) : bool :=
  let envValues := map snd (default [] (env original)) in
  let hasEnvTemplates := existsb (fun v => containsTemplate (Some v)) envValues in
  let hasUrlTemplate := containsTemplate (url original) in
  let hasAuthTemplates :=
    containsTemplate (auth original ≫= token)
    || containsTemplate (auth original ≫= api_url)
    || containsTemplate (auth original ≫= api_token)
    || containsTemplate (auth original ≫= api_secret) in
  hasEnvTemplates || hasUrlTemplate || hasAuthTemplates.

Definition entry_id (e : MCPServerWithSource) : string :=
  mcp_server_id (server e).

Definition tag (src : Source) (l : list MCPServer) : list MCPServerWithSource :=
  map (fun s => mkWithSource s src) l.

(** The ids of a list of entries, as a set. *)
Definition id_set (l : list MCPServerWithSource) : gset string :=
  list_to_set (map entry_id l).

(** One turn of either [for (const server of ...)] loop: push the server
    unless its id was seen. *)
Definition push_unseen (src : Source)
    (acc : gset string * list MCPServerWithSource) (s : MCPServer)
  : gset string * list MCPServerWithSource :=
  if decide (mcp_server_id s ∈ acc.1) then acc
  else ({[mcp_server_id s]} ∪ acc.1, acc.2 ++ [mkWithSource s src]).

Definition collect (src : Source) (l : list MCPServer)
    (acc : gset string * list MCPServerWithSource)
  : gset string * list MCPServerWithSource :=
  fold_left (push_unseen src) l acc.

Section Resolver.
(** [@agor/core/mcp] is outside the extraction: the template context
    built from [process.env] and the template resolver are taken as they
    come. *)
Variable TemplateContext : Type.
Variable resolveMcpServerTemplates :
  MCPServer -> TemplateContext -> ResolveResult.
Variable templateContext : TemplateContext.

(** STEP 3, [for (let i = servers.length - 1; i >= 0; i--)], entered with
    [n = i + 1]. Reading [servers[i].server] past the end is a
    [TypeError], here [None]. *)
Fixpoint template_loop (n : nat) (servers : list MCPServerWithSource)
  : option (list MCPServerWithSource) :=
  match n with
  | O => Some servers
  | S i =>
      match servers !! i with
      | None => None
      | Some entry =>
          let original := server entry in
          if hasTemplates original then
            let result := resolveMcpServerTemplates original templateContext in
            if negb (isValid result) then template_loop i (delete i servers)
            else
              template_loop i
                (<[i := mkWithSource (resolved_server result) (source entry)]>
                   servers)
          else template_loop i servers
      end
  end.

Definition getMcpServersForSession (sessionId : string)
    (deps : MCPResolutionDeps) : list MCPServerWithSource :=
  match sessionMCPRepo deps, mcpServerRepo deps with
  | Some sessionRepo, Some serverRepo =>
      match findAll serverRepo "global" true (forUserId deps) with
      | inl _ => []
      | inr globalServers =>
          let acc := collect global (default [] globalServers) (∅, []) in
          match listServers sessionRepo sessionId true with
          | inl _ => []
          | inr sessionServers =>
              let servers := (collect session_assigned sessionServers acc).2 in
              default [] (template_loop (length servers) servers)
          end
      end
  | _, _ => []
  end.

(** *** The resolver in the specification's words *)

(** Keep the first entry of every id. *)
Fixpoint dedupe_by_id (seen : gset string) (l : list MCPServerWithSource)
  : list MCPServerWithSource :=
  match l with
  | [] => []
  | e :: rest =>
      if decide (mcp_server_id (server e) ∈ seen)
      then dedupe_by_id seen rest
      else e :: dedupe_by_id ({[mcp_server_id (server e)]} ∪ seen) rest
  end.

(** A templated server whose resolution is invalid: a required field
    did not resolve. *)
Definition required_unresolved (s : MCPServer) : bool :=
  hasTemplates s && negb (isValid (resolveMcpServerTemplates s templateContext)).

(** A kept server carries its resolved fields. *)
Definition resolve_entry (e : MCPServerWithSource) : MCPServerWithSource :=
  if hasTemplates (server e)
  then mkWithSource
         (resolved_server (resolveMcpServerTemplates (server e) templateContext))
         (source e)
  else e.

Definition candidates (G A : list MCPServer) : list MCPServerWithSource :=
  dedupe_by_id ∅ (tag global G ++ tag session_assigned A).

Definition kept (G A : list MCPServer) : list MCPServerWithSource :=
  List.filter (fun e => negb (required_unresolved (server e))) (candidates G A).

Definition spec_resolver (G A : list MCPServer) : list MCPServerWithSource :=
  map resolve_entry (kept G A).
End Resolver.

(** Modelled from the spec: [resolveMcpServerTemplates] of [@agor/core/mcp],
    which is not part of the extraction. This stand-in looks up a field of
    the exact shape [{{KEY}}] in the context; the endpoint [url] is the
    required field, the auth token an optional one. *)
Definition lookup_template (ctx : list (string * string)) (v : string)
  : option string :=
  snd <$> List.find (fun kv => String.eqb v ("{{" +:+ fst kv +:+ "}}")) ctx.

Definition resolve_field (ctx : list (string * string)) (v : option string)
  : option string * bool :=
  match v with
  | None => (None, true)
  | Some s =>
      if containsTemplate (Some s) then
        match lookup_template ctx s with
        | Some r => (Some r, true)
        | None => (Some s, false)
        end
      else (Some s, true)
  end.

Definition simple_resolveMcpServerTemplates (s : MCPServer)
    (ctx : list (string * string)) : ResolveResult :=
  let '(u, url_ok) := resolve_field ctx (url s) in
  let '(t, token_ok) := resolve_field ctx (auth s ≫= token) in
  let auth' :=
    (fun a => mkAuth t (api_url a) (api_token a) (api_secret a)) <$> auth s in
  mkResolve url_ok
    (mkServer (mcp_server_id s) (name s) (transport s) (scope s) (enabled s)
       u (env s) auth')
    (if token_ok then [] else ["auth.token"])
    (if url_ok then None else Some "Required template in url did not resolve").

(** Sample data: the third scenario of the specification. *)
Definition plain_server (i : string) (sc : string) : MCPServer :=
  mkServer i ("server-" +:+ i) "stdio" sc true None None None.

Definition templated_server (i : string) (sc : string) (u : string) : MCPServer :=
  mkServer i ("server-" +:+ i) "http" sc true (Some u) None None.

Definition scenario_global : list MCPServer :=
  [plain_server "1" "global";
   templated_server "2" "global" "https://{{HOST}}/mcp"].

Definition scenario_session : list MCPServer :=
  [plain_server "2" "session"; plain_server "3" "session"].

Definition scenario_deps : MCPResolutionDeps :=
  mkDeps (Some (mkSessionRepo (fun _ _ => inr scenario_session)))
         (Some (mkMcpRepo (fun _ _ _ => inr (Some scenario_global))))
         None.

End Mcp.

(** ** Claude prompt service: claude/prompt-service.ts *)

Module Streaming.
Import Js.

Record Usage : Type := mkUsage {
  input_tokens : option Z;
  output_tokens : option Z;
  cache_creation_tokens : option Z;
  cache_read_tokens : option Z
}.

Record ContentBlock : Type := mkBlock {
  block_type : string;
  block_text : option string;
  block_id : option string;
  block_name : option string
}.

Record ToolUse : Type := mkToolUse {
  tool_id : string;
  tool_name : string
}.

(** A raw vendor event: a typed event with optional session id, content,
    partial text and usage. *)
Record SDKMessage : Type := mkMessage {
  msg_type : string;
  msg_session_id : option string;
  msg_content : list ContentBlock;
  msg_text : option string;
  msg_usage : option Usage
}.

(** [ProcessedEvent] of claude/message-processor.ts, by the [type] tags and
    fields the prompt service reads. *)
Inductive ProcessedEvent : Type :=
  | session_id_captured (agentSessionId : string)
  | complete (role : string) (content : list ContentBlock)
             (toolUses : option (list ToolUse))
  | partial (textChunk : string)
  | result (raw_sdk_message_usage : option Usage)
  | end_ (reason : string)
  | stopped
  | other (type : string).

Definition is_end (e : ProcessedEvent) : bool :=
  match e with end_ _ => true | _ => false end.

Definition is_complete (e : ProcessedEvent) : bool :=
  match e with complete _ _ _ => true | _ => false end.

Definition is_stopped (e : ProcessedEvent) : bool :=
  match e with stopped => true | _ => false end.

Definition is_session_id_captured (e : ProcessedEvent) : bool :=
  match e with session_id_captured _ => true | _ => false end.

(** [MessageRole.ASSISTANT] *)
Definition ASSISTANT : string := "assistant".

(** [ClaudePromptService.IDLE_TIMEOUT_MS] *)
Definition IDLE_TIMEOUT_MS : Z := 300000.

(** [ClaudePromptService.ENABLE_TOKEN_STREAMING] *)
Definition ENABLE_TOKEN_STREAMING : bool := true.

(** The constructor options of [SDKMessageProcessor]. *)
Record ProcessorOptions : Type := mkOptions {
  opt_sessionId : string;
  existingSdkSessionId : option string;
  enableTokenStreaming : bool;
  opt_idleTimeoutMs : Z
}.

(** The part of [processor.getState()] the prompt service reads. *)
Record ProcessorState : Type := mkView {
  lastActivityTime : Z;
  idleTimeoutMs : Z;
  messageCount : Z
}.

(** The interface of [SDKMessageProcessor] (claude/message-processor.ts is
    outside the extraction). Every method takes the clock reading of the
    moment it runs; [process] may reject and still have changed the
    processor. *)
Record SDKMessageProcessor : Type := mkProcessor {
  PState : Type;
  create : ProcessorOptions -> Z -> PState;
  hasTimedOut : PState -> Z -> bool;
  getState : PState -> ProcessorState;
  process : PState -> Z -> SDKMessage -> PState * Result (list ProcessedEvent)
}.

(** [sessionsRepo.update(sessionId, { sdk_session_id })]: [None] when the
    promise resolves. *)
Record SessionRepository : Type := mkRepo {
  update : string -> string -> option Thrown
}.

(** The raw vendor stream: the messages with the clock reading at which
    the loop body receives each, then how the iteration finishes. *)
Inductive Ending : Type :=
  | Done
  | Throws (t : Thrown).

Record RawStream : Type := mkStream {
  items : list (Z * SDKMessage);
  ending : Ending
}.

(** What a run of the generator does, in order. *)
Inductive Action : Type :=
  | Yield (e : ProcessedEvent)
  | DbUpdate (sessionId sdk_session_id : string).

Inductive Outcome : Type :=
  | Returned
  | Raised (t : Thrown).

Inductive LoopExit : Type :=
  | Exhausted
  | Ended
  | Threw (t : Thrown).

Definition nl : string := String (ascii_of_nat 10) EmptyString.

Definition idle_timeout_message (idleMs timeoutMs messageCount : Z) : string :=
  "Claude SDK idle timeout: No activity for "
  +:+ string_of_Z (round_div_1000 idleMs)
  +:+ "s (timeout: " +:+ string_of_Z (round_div_1000 timeoutMs) +:+ "s). "
  +:+ "SDK may have hung or crashed. Last message type was #"
  +:+ string_of_Z messageCount +:+ ".".

(** [error instanceof Error &&
     (error.name === 'AbortError' || error.message.includes('abort'))] *)
Definition isAbortError (t : Thrown) : bool :=
  match t with
  | ThrownError e =>
      String.eqb (error_name e) "AbortError" || includes "abort" (error_message e)
  | ThrownOther _ => false
  end.

(** [error instanceof Error ? error.message : String(error)] *)
(** [error.name], when the thrown value is an [Error]. *)
Definition error_name_of (t : Thrown) : option string :=
  match t with
  | ThrownError e => Some (error_name e)
  | ThrownOther _ => None
  end.

Definition thrown_text (t : Thrown) : string :=
  match t with
  | ThrownError e => error_message e
  | ThrownOther s => s
  end.

Definition enhancedError (messageCount : Z) (t : Thrown) (stderrOutput : string)
  : JsError :=
  let errorContext :=
    if String.eqb stderrOutput "" then ""
    else nl +:+ nl +:+ "Claude Code stderr output:" +:+ nl +:+ stderrOutput in
  new_Error ("Claude SDK error after " +:+ string_of_Z messageCount
             +:+ " messages: " +:+ thrown_text t +:+ errorContext).

(** One entry of [PromptResult.messages]. *)
Record AssistantMessage : Type := mkAssistantMessage {
  am_content : list ContentBlock;
  am_toolUses : option (list ToolUse)
}.

Record PromptResult : Type := mkPromptResult {
  messages : list AssistantMessage;
  inputTokens : Z;
  outputTokens : Z
}.

Section Service.
Variable P : SDKMessageProcessor.
Variable sessionsRepo : option SessionRepository.
Variable sessionId : string.

(** [for (const event of events)] of the streaming version; the thrown
    value, if any, is the repository's. *)
Fixpoint handle_events (events : list ProcessedEvent)
  : list Action * option Thrown :=
  match events with
  | [] => ([], None)
  | session_id_captured sid :: rest =>
      match sessionsRepo with
      | Some repo =>
          match update repo sessionId sid with
          | Some t => ([], Some t)
          | None =>
              let '(acts, t) := handle_events rest in
              (DbUpdate sessionId sid :: acts, t)
          end
      | None => handle_events rest
      end
  | end_ _ :: _ => ([], None)
  | event :: rest =>
      let '(acts, t) := handle_events rest in (Yield event :: acts, t)
  end.

(** [for await (const msg of result)] of the streaming version. *)
Fixpoint stream_loop (ps : PState P) (msgs : list (Z * SDKMessage))
  : list Action * PState P * LoopExit :=
  match msgs with
  | [] => ([], ps, Exhausted)
  | (now, msg) :: rest =>
      if hasTimedOut P ps now then
        let state := getState P ps in
        ([], ps,
         Threw (ThrownError (new_Error
           (idle_timeout_message (now - lastActivityTime state)
              (idleTimeoutMs state) (messageCount state)))))
      else
        let '(ps1, processed) := process P ps now msg in
        match processed with
        | inl t => ([], ps1, Threw t)
        | inr events =>
            let '(acts, t) := handle_events events in
            match t with
            | Some t => (acts, ps1, Threw t)
            | None =>
                if existsb is_end events then (acts, ps1, Ended)
                else
                  let '(acts', ps', exit) := stream_loop ps1 rest in
                  (acts ++ acts', ps', exit)
            end
        end
  end.

(** What reaches the [catch] block, if anything. *)
Definition caught (exit : LoopExit) (e : Ending) : option Thrown :=
  match exit with
  | Threw t => Some t
  | Ended => None
  | Exhausted => match e with Done => None | Throws t => Some t end
  end.

(** [promptSessionStreaming], from the creation of the processor on.
    [stderr] is what [getStderr()] returns in the [catch] block, [t0] the
    clock when the processor is created. *)
Definition promptSessionStreaming (existing : option string) (stderr : string)
    (t0 : Z) (stream : RawStream) : list Action * Outcome :=
  let processor :=
    create P (mkOptions sessionId existing ENABLE_TOKEN_STREAMING
                IDLE_TIMEOUT_MS) t0 in
  let '(acts, ps, exit) := stream_loop processor (items stream) in
  match caught exit (ending stream) with
  | None => (acts, Returned)
  | Some t =>
      if isAbortError t then (acts ++ [Yield stopped], Returned)
      else
        (acts,
         Raised (ThrownError
           (enhancedError (messageCount (getState P ps)) t stderr)))
  end.

(** *** The non-streaming version *)

(** [for (const event of events)] of [promptSession]: the state is
    [assistantMessages] and [tokenUsage]. *)
Fixpoint collect_events (events : list ProcessedEvent)
    (acc : list AssistantMessage * option Usage)
  : list AssistantMessage * option Usage :=
  match events with
  | [] => acc
  | event :: rest =>
      let acc1 :=
        match event with
        | complete role content toolUses =>
            if String.eqb role ASSISTANT
            then (acc.1 ++ [mkAssistantMessage content toolUses], acc.2)
            else acc
        | _ => acc
        end in
      let acc2 :=
        match event with
        | result (Some u) => (acc1.1, Some u)
        | _ => acc1
        end in
      if is_end event then acc2 else collect_events rest acc2
  end.

(** [for await (const msg of result)] of [promptSession]: no idle check,
    and an [end] event leaves only the inner loop. *)
Fixpoint prompt_loop (ps : PState P) (msgs : list (Z * SDKMessage))
    (acc : list AssistantMessage * option Usage)
  : list AssistantMessage * option Usage * option Thrown :=
  match msgs with
  | [] => (acc, None)
  | (now, msg) :: rest =>
      let '(ps1, processed) := process P ps now msg in
      match processed with
      | inl t => (acc, Some t)
      | inr events => prompt_loop ps1 rest (collect_events events acc)
      end
  end.

Definition prompt_result (acc : list AssistantMessage * option Usage)
  : PromptResult :=
  mkPromptResult acc.1 (or0 (acc.2 ≫= input_tokens))
    (or0 (acc.2 ≫= output_tokens)).

Definition promptSession (existing : option string) (t0 : Z)
    (stream : RawStream) : Result PromptResult :=
  let processor :=
    create P (mkOptions sessionId existing false IDLE_TIMEOUT_MS) t0 in
  let '(acc, t) := prompt_loop processor (items stream) ([], None) in
  let thrown :=
    match t with
    | Some t => Some t
    | None => match ending stream with Done => None | Throws t => Some t end
    end in
  match thrown with
  | None => inr (prompt_result acc)
  | Some t => if isAbortError t then inr (prompt_result acc) else inl t
  end.
End Service.

(** *** The events the processor has handed over, and the session store *)

(** The events of one batch that the inner loop reaches: those before the
    first [end]. *)
Fixpoint before_end (events : list ProcessedEvent) : list ProcessedEvent :=
  match events with
  | [] => []
  | e :: rest => if is_end e then [] else e :: before_end rest
  end.

(** The effect of one handed-over event when the repository is there and
    its update resolves. *)
Definition action_of (sessionId : string) (e : ProcessedEvent) : Action :=
  match e with
  | session_id_captured sid => DbUpdate sessionId sid
  | _ => Yield e
  end.

(** The session store: session id to [sdk_session_id]. *)
Definition apply_action (store : gmap string string) (a : Action)
  : gmap string string :=
  match a with
  | Yield _ => store
  | DbUpdate sessionId sid => <[sessionId := sid]> store
  end.

Definition apply_actions (acts : list Action) (store : gmap string string)
  : gmap string string :=
  fold_left apply_action acts store.

Definition yielded (acts : list Action) : list ProcessedEvent :=
  flat_map (fun a => match a with Yield e => [e] | DbUpdate _ _ => [] end) acts.

(** *** A processor after the specification *)

Record SpecState : Type := mkSpecState {
  s_lastActivityTime : Z;
  s_idleTimeoutMs : Z;
  s_messageCount : Z;
  s_captured : option string;
  s_streaming : bool
}.

Definition tool_uses_of (content : list ContentBlock) : option (list ToolUse) :=
  match
    flat_map
      (fun b =>
         if String.eqb (block_type b) "tool_use"
         then [mkToolUse (default "" (block_id b)) (default "" (block_name b))]
         else [])
      content
  with
  | [] => None
  | l => Some l
  end.

(** Modelled from the spec: [SDKMessageProcessor] of
    claude/message-processor.ts, which is not part of the extraction. Every
    raw event resets [lastActivityTime] and counts as a message; the first
    event that reveals a session id yields [session_id_captured] ahead of
    anything else; partial text is a chunk; each assistant message is one
    [complete] event of its own; a result event yields [result], then
    [end]. *)
Definition spec_process (st : SpecState) (now : Z) (msg : SDKMessage)
  : SpecState * Result (list ProcessedEvent) :=
  let capture :=
    match s_captured st, msg_session_id msg with
    | None, Some sid => [session_id_captured sid]
    | _, _ => []
    end in
  let captured' :=
    match s_captured st with
    | None => msg_session_id msg
    | Some c => Some c
    end in
  let body :=
    if String.eqb (msg_type msg) "assistant" then
      [complete ASSISTANT (msg_content msg) (tool_uses_of (msg_content msg))]
    else if String.eqb (msg_type msg) "stream_event" then
      match msg_text msg with
      | Some chunk => if s_streaming st then [partial chunk] else []
      | None => []
      end
    else if String.eqb (msg_type msg) "result" then
      [result (msg_usage msg); end_ "result"]
    else [] in
  (mkSpecState now (s_idleTimeoutMs st) (s_messageCount st + 1) captured'
     (s_streaming st),
   inr (capture ++ body)).

Definition SpecProcessor : SDKMessageProcessor :=
  mkProcessor SpecState
    (fun opts t0 =>
       mkSpecState t0 (opt_idleTimeoutMs opts) 0 None (enableTokenStreaming opts))
    (fun st now => s_idleTimeoutMs st <? now - s_lastActivityTime st)
    (fun st =>
       mkView (s_lastActivityTime st) (s_idleTimeoutMs st) (s_messageCount st))
    spec_process.

(** Sample raw events. *)
Definition text_block (s : string) : ContentBlock :=
  mkBlock "text" (Some s) None None.

Definition tool_block (i n : string) : ContentBlock :=
  mkBlock "tool_use" None (Some i) (Some n).

Definition system_init (sid : string) : SDKMessage :=
  mkMessage "system" (Some sid) [] None None.

Definition assistant_message (content : list ContentBlock) : SDKMessage :=
  mkMessage "assistant" None content None None.

Definition result_message (u : option Usage) : SDKMessage :=
  mkMessage "result" None [] None u.

Definition always_ok : SessionRepository := mkRepo (fun _ _ => None).

Definition AbortError : Thrown :=
  ThrownError (mkError "AbortError" "The operation was aborted").

(** *** Vocabulary of the properties *)

Section Emitted.
Variable P : SDKMessageProcessor.

(** The events the processor hands to the streaming loop, in the order
    it produces them, until the loop stops asking. *)
Fixpoint emitted (ps : PState P) (msgs : list (Z * SDKMessage))
  : list ProcessedEvent :=
  match msgs with
  | [] => []
  | (now, msg) :: rest =>
      if hasTimedOut P ps now then []
      else
        match process P ps now msg with
        | (_, inl _) => []
        | (ps1, inr events) =>
            before_end events
            ++ (if existsb is_end events then [] else emitted ps1 rest)
        end
  end.

(** Modelled from the spec: the idle clock of [SDKMessageProcessor]. The
    processor is created with the configured threshold and the current
    time, every processed event resets [lastActivityTime] and is counted,
    and the processor has timed out once the silence exceeds the
    threshold. *)
Record tracks_activity : Prop := mkTracks {
  timed_out_spec : forall ps now,
    hasTimedOut P ps now
    = (idleTimeoutMs (getState P ps) <? now - lastActivityTime (getState P ps));
  created_spec : forall opts t0,
    getState P (create P opts t0) = mkView t0 (opt_idleTimeoutMs opts) 0;
  processed_spec : forall ps now msg ps1 events,
    process P ps now msg = (ps1, inr events) ->
    getState P ps1
    = mkView now (idleTimeoutMs (getState P ps)) (messageCount (getState P ps) + 1)
}.

(** Modelled from the spec: every assistant message becomes one
    [complete] event of its own, and nothing else becomes one. *)
Definition one_complete_per_assistant
    (toolUsesOf : SDKMessage -> option (list ToolUse)) : Prop :=
  forall ps now msg, exists ps1 events,
    process P ps now msg = (ps1, inr events) /\
    List.filter is_complete (before_end events)
    = if String.eqb (msg_type msg) "assistant"
      then [complete ASSISTANT (msg_content msg) (toolUsesOf msg)]
      else [].
End Emitted.

(** The same processor with the idle check switched off. *)
Definition without_idle_check (P : SDKMessageProcessor) : SDKMessageProcessor :=
  mkProcessor (PState P) (create P) (fun _ _ => false) (getState P) (process P).

(** Every event arrives within the threshold of the previous activity. *)
Fixpoint timely (threshold prev : Z) (msgs : list (Z * SDKMessage)) : bool :=
  match msgs with
  | [] => true
  | (now, _) :: rest => (now - prev <=? threshold) && timely threshold now rest
  end.

(** The time of the last activity after [msgs], starting from [t0]. *)
Definition last_time (t0 : Z) (msgs : list (Z * SDKMessage)) : Z :=
  List.last (map fst msgs) t0.

(** What the specification promises about an idle stream: the raised
    value is an [IdleTimeoutError]. *)
Definition is_IdleTimeoutError (t : Thrown) : Prop :=
  exists e, t = ThrownError e /\ error_name e = "IdleTimeoutError".

Definition is_assistant (msg : SDKMessage) : bool :=
  String.eqb (msg_type msg) "assistant".

(** The entry of [PromptResult.messages] a [complete] event of the
    assistant gives. *)
Definition entry_of (e : ProcessedEvent) : list AssistantMessage :=
  match e with
  | complete role content toolUses =>
      if String.eqb role ASSISTANT then [mkAssistantMessage content toolUses]
      else []
  | _ => []
  end.

(** The options [promptSessionStreaming] creates its processor with. *)
Definition streaming_options (sessionId : string) (existing : option string)
  : ProcessorOptions :=
  mkOptions sessionId existing ENABLE_TOKEN_STREAMING IDLE_TIMEOUT_MS.

(** Sample streams: a turn of a tool call and an answer; the same turn
    cut by a cancellation; a turn whose second event comes after 399
    seconds of silence. *)
Definition sample_turn : list (Z * SDKMessage) :=
  [(10, system_init "sdk-1");
   (20, assistant_message [tool_block "t1" "Read"]);
   (30, assistant_message [text_block "done"]);
   (40, result_message (Some (mkUsage (Some 5) (Some 7) None None)))].

Definition cancelled_turn : list (Z * SDKMessage) :=
  [(10, system_init "sdk-1");
   (20, assistant_message [tool_block "t1" "Read"])].

Definition silent_turn : list (Z * SDKMessage) :=
  [(1000, system_init "sdk-1");
   (400000, assistant_message [text_block "late"])].

End Streaming.

(** ** Agent adapters: the remaining operations *)

Module AdapterOps.
Import Js Adapter.

(** [Partial<SessionConfig>]: every field is either left out or given a
    new value (an explicit [undefined] is not represented). *)
Record SessionConfigUpdates : Type := mkUpdates {
  u_id : option string;
  u_agentType : option string;
  u_permissionMode : option string;
  u_parentSessionId : option (option string);
  u_worktreeId : option (option string)
}.

Definition no_updates : SessionConfigUpdates :=
  mkUpdates None None None None None.

(** [{ ...session.config, ...updates }] *)
Definition merge_config (c : SessionConfig) (u : SessionConfigUpdates)
  : SessionConfig :=
  mkSessionConfig
    (default (id c) (u_id u))
    (default (agentType c) (u_agentType u))
    (default (permissionMode c) (u_permissionMode u))
    (default (parentSessionId c) (u_parentSessionId u))
    (default (worktreeId c) (u_worktreeId u)).

Definition getSessionState (a : AdapterState) (sessionId : string)
  : Result SessionState :=
  match sessions a !! sessionId with
  | None => inl (session_not_found sessionId)
  | Some session => inr session
  end.

Definition updateSession (now : Z) (a : AdapterState) (sessionId : string)
    (updates : SessionConfigUpdates) : AdapterState * Result unit :=
  match sessions a !! sessionId with
  | None => (a, inl (session_not_found sessionId))
  | Some session =>
      (mkAdapter
         (<[sessionId := mkSessionState (merge_config (config session) updates)
                           (status session) (createdAt session) now
                           (taskIds session)]> (sessions a))
         (isInitialized a),
       inr tt)
  end.

(** [healthCheck]: any rejection is turned into [false]. *)
Definition healthCheck (auth : IAuthProvider) : bool :=
  match getCredentials auth with
  | inl _ => false
  | inr credentials =>
      match validateCredentials auth credentials with
      | inl _ => false
      | inr b => b
      end
  end.

(** The loop of [cleanup] over the entries of the session map, visited in
    the order [ids]. The status is read from the live session object. *)
Fixpoint cleanup_loop (now : Z) (a : AdapterState) (ids : list string)
  : AdapterState * Result unit :=
  match ids with
  | [] => (a, inr tt)
  | sessionId :: rest =>
      match sessions a !! sessionId with
      | None => cleanup_loop now a rest
      | Some session =>
          match status session with
          | running =>
              match terminateSession now a sessionId with
              | (a1, inl t) => (a1, inl t)
              | (a1, inr _) => cleanup_loop now a1 rest
              end
          | _ => cleanup_loop now a rest
          end
      end
  end.

(** [cleanup]: JavaScript visits the entries in insertion order, the
    embedding in the order of [map_to_list]; the loop touches one entry per
    turn, so the order does not show in the result. *)
Definition cleanup (now : Z) (a : AdapterState) : AdapterState * Result unit :=
  match cleanup_loop now a (map fst (map_to_list (sessions a))) with
  | (a1, inl t) => (a1, inl t)
  | (a1, inr _) => (mkAdapter ∅ false, inr tt)
  end.

(** Every session is stored under its own id. *)
Definition keys_match (a : AdapterState) : Prop :=
  forall key session, sessions a !! key = Some session -> id (config session) = key.

End AdapterOps.

(** ** Session context in CLAUDE.md: claude/session-context.ts *)

Module SessionContext.
Import Js.

Definition newline : string := String (ascii_of_nat 10) EmptyString.

(** The heading [appendSessionContextToCLAUDEmd] looks for. *)
Definition HEADING : string := "## Agor Session Context".

(** The text [removeSessionContextFromCLAUDEmd] looks for:
    ['\n\n---\n\n## Agor Session Context']. *)
Definition SEPARATOR : string :=
  String (ascii_of_nat 10) (String (ascii_of_nat 10)
    ("---" +:+ String (ascii_of_nat 10) (String (ascii_of_nat 10) HEADING))).

(** The template of [generateSessionContext] after its first five lines,
    which are [SEPARATOR]. *)
Definition context_body (sessionId shortId sdkSessionLine : string) : string :=
  newline +:+ newline
  +:+ "You are currently running within **Agor** (https://agor.live), a multiplayer canvas for orchestrating AI coding agents."
  +:+ newline +:+ newline
  +:+ "**Session IDs:**" +:+ newline
  +:+ "- **Agor Session ID:** `" +:+ sessionId +:+ "` (short: `" +:+ shortId
  +:+ "`) - Agor's internal session tracking" +:+ sdkSessionLine
  +:+ newline +:+ newline
  +:+ "When you see these IDs referenced in prompts or tool calls, they refer to THIS session you're currently in."
  +:+ newline +:+ newline
  +:+ "For more information about Agor, visit https://agor.live" +:+ newline.

Definition generateSessionContext (sessionId : string)
    (sdkSessionId : option string) : string :=
  let shortId := String.substring 0 8 sessionId in
  let sdkSessionLine :=
    match sdkSessionId with
    | None => ""
    | Some sdk =>
        if String.eqb sdk "" then ""
        else newline +:+ "- **Claude SDK Session ID:** `" +:+ sdk
             +:+ "` (used by Claude CLI for conversation continuity)"
    end in
  SEPARATOR +:+ context_body sessionId shortId sdkSessionLine.

(** [hay.indexOf(needle)]: [None] is [-1]. *)
Fixpoint indexOf (needle hay : string) : option nat :=
  if String.prefix needle hay then Some O
  else
    match hay with
    | EmptyString => None
    | String _ rest => S <$> indexOf needle rest
    end.

(** The files the two functions can see. Reading a file fails when it is
    missing or when the path is in [unreadable]; writing fails when the
    path is in [unwritable]. *)
Record Fs : Type := mkFs {
  files : gmap string string;
  unreadable : gset string;
  unwritable : gset string
}.

Definition readFile (fs : Fs) (p : string) : Result string :=
  if decide (p ∈ unreadable fs) then inl (ThrownError (mkError "Error" "EACCES"))
  else
    match files fs !! p with
    | Some c => inr c
    | None => inl (ThrownError (mkError "Error" "ENOENT"))
    end.

Definition writeFile (fs : Fs) (p content : string) : Fs * Result unit :=
  if decide (p ∈ unwritable fs)
  then (fs, inl (ThrownError (mkError "Error" "EACCES")))
  else (mkFs (<[p := content]> (files fs)) (unreadable fs) (unwritable fs), inr tt).

Section Paths.
(** [path.join] of Node. *)
Variable path_join : string -> string -> string.

Definition claudeMdPath (worktreePath : string) : string :=
  path_join worktreePath "CLAUDE.md".

(** Both functions return nothing and catch whatever is thrown: their whole
    effect is the new state of the files. *)
Definition appendSessionContextToCLAUDEmd (fs : Fs) (worktreePath : string)
    (sessionId : string) (sdkSessionId : option string) : Fs :=
  let existingContent :=
    match readFile fs (claudeMdPath worktreePath) with
    | inr c => c
    | inl _ => ""
    end in
  if includes HEADING existingContent then fs
  else
    (writeFile fs (claudeMdPath worktreePath)
       (existingContent +:+ generateSessionContext sessionId sdkSessionId)).1.

Definition removeSessionContextFromCLAUDEmd (fs : Fs) (worktreePath : string)
  : Fs :=
  match readFile fs (claudeMdPath worktreePath) with
  | inl _ => fs
  | inr content =>
      match indexOf SEPARATOR content with
      | None => fs
      | Some contextStart =>
          (writeFile fs (claudeMdPath worktreePath)
             (String.substring 0 contextStart content)).1
      end
  end.
End Paths.

(** Sample data. *)
Definition sample_fs : Fs :=
  mkFs {[ "/w/CLAUDE.md" := "# Project rules" ]} ∅ ∅.

Definition locked_fs : Fs :=
  mkFs {[ "/w/CLAUDE.md" := "# Project rules" ]} {[ "/w/CLAUDE.md" ]} ∅.

Definition join_slash (a b : string) : string := a +:+ "/" +:+ b.

End SessionContext.

(** ** The prompt service: what the two loops look at *)

Module StreamingTrace.
Import Js Streaming.

Section Collected.
Variable P : SDKMessageProcessor.

(** The events the inner loop of [promptSession] looks at, in order: of
    every batch those before its first [end], batch after batch until the
    stream is over or [process] rejects. *)
Fixpoint collected (ps : PState P) (msgs : list (Z * SDKMessage))
  : list ProcessedEvent :=
  match msgs with
  | [] => []
  | (now, msg) :: rest =>
      match process P ps now msg with
      | (_, inl _) => []
      | (ps1, inr events) => before_end events ++ collected ps1 rest
      end
  end.
End Collected.

(** [event.type === 'result' && event.raw_sdk_message?.usage] *)
Definition usage_of (e : ProcessedEvent) : option Usage :=
  match e with
  | result (Some u) => Some u
  | _ => None
  end.

(** The usage of the last [result] event that carries one. *)
Definition last_usage (events : list ProcessedEvent) : option Usage :=
  last (omap usage_of events).

(** A turn with two results, and a stream that goes on after its result. *)
Definition two_results : list (Z * SDKMessage) :=
  [(10, assistant_message [text_block "a"]);
   (20, result_message (Some (mkUsage (Some 5) (Some 7) None None)));
   (30, assistant_message [text_block "b"]);
   (40, result_message (Some (mkUsage (Some 11) None None None)))].

Definition late_message : list (Z * SDKMessage) :=
  [(50, assistant_message [text_block "too late"])].

End StreamingTrace.

(** ** MCP servers: what the repositories offer *)

Module McpOffer.
Import Js Mcp.

(** The servers the two repositories hand to [getMcpServersForSession],
    global ones first, each with the source it will be tagged with; nothing
    when a repository is missing or a call rejects. *)
Definition offered (sessionId : string) (deps : MCPResolutionDeps)
  : list MCPServerWithSource :=
  match sessionMCPRepo deps, mcpServerRepo deps with
  | Some sessionRepo, Some serverRepo =>
      match findAll serverRepo "global" true (forUserId deps),
            listServers sessionRepo sessionId true with
      | inr globalServers, inr sessionServers =>
          tag global (default [] globalServers)
          ++ tag session_assigned sessionServers
      | _, _ => []
      end
  | _, _ => []
  end.

(** A server whose optional token template does not resolve. *)
Definition token_server (i : string) : MCPServer :=
  mkServer i ("server-" +:+ i) "http" "global" true (Some "{{MCP_URL}}")
    None (Some (mkAuth (Some "{{TOKEN}}") None None None)).

Definition token_deps : MCPResolutionDeps :=
  mkDeps (Some (mkSessionRepo (fun _ _ => inr [plain_server "7" "session"])))
         (Some (mkMcpRepo (fun _ _ _ => inr (Some [token_server "5"]))))
         None.

End McpOffer.

(** ** The localStorage storage adapter *)

Module Storage.
Import Js.

(** JavaScript values as JSON and the callers of the adapter hand them
    over. Numbers are the integer-valued ones of the conventions above; a
    fractional number behaves like a non-zero one wherever the adapter
    looks at a value. *)
#[warnings="-register-all"]
Inductive Value : Type :=
  | VUndefined
  | VNull
  | VBool (b : bool)
  | VNum (n : Z)
  | VStr (s : string)
  | VArr (elements : list Value)
  | VObj (fields : gmap string Value).

(** [!v] is false *)
Definition truthy (v : Value) : bool :=
  match v with
  | VUndefined | VNull => false
  | VBool b => b
  | VNum n => negb (n =? 0)
  | VStr s => negb (String.eqb s "")
  | VArr _ | VObj _ => true
  end.

(** the left operand of [??] is replaced *)
Definition nullish (v : Value) : bool :=
  match v with
  | VUndefined | VNull => true
  | _ => false
  end.

(** [a === b], for [a] read from storage and [b] handed in by the caller:
    primitives are compared by value; an object or array is only equal to
    itself, and nothing parsed from storage is the caller's object. *)
Definition strict_equal (a b : Value) : bool :=
  match a, b with
  | VUndefined, VUndefined => true
  | VNull, VNull => true
  | VBool x, VBool y => Bool.eqb x y
  | VNum x, VNum y => x =? y
  | VStr x, VStr y => String.eqb x y
  | _, _ => false
  end.

(** [`${v}`] *)
Fixpoint to_string (v : Value) : string :=
  match v with
  | VUndefined => "undefined"
  | VNull => "null"
  | VBool b => if b then "true" else "false"
  | VNum n => string_of_Z n
  | VStr s => s
  | VArr elements =>
      (fix join (l : list Value) : string :=
         match l with
         | [] => ""
         | x :: rest =>
             let head :=
               match x with
               | VUndefined | VNull => ""
               | _ => to_string x
               end in
             match rest with
             | [] => head
             | _ :: _ => head +:+ "," +:+ join rest
             end
         end) elements
  | VObj _ => "[object Object]"
  end.

Definition index_key (i : nat) : string := string_of_Z (Z.of_nat i).

(** The own enumerable properties an object spread [{...v}] copies. *)
Definition own_properties (v : Value) : gmap string Value :=
  match v with
  | VObj fields => fields
  | VArr elements => list_to_map (imap (fun i x => (index_key i, x)) elements)
  | VStr s =>
      list_to_map
        (imap (fun i c => (index_key i, VStr (String c EmptyString)))
           (list_ascii_of_string s))
  | _ => ∅
  end.

(** The engine's [TypeError]; its text is the engine's own. *)
Definition TypeError (what : string) : Thrown :=
  ThrownError (mkError "TypeError" what).

(** [v.name] for a name that is no index, not [length] and no member of a
    prototype, such as [message_id]. *)
Definition get_field (v : Value) (name : string) : Result Value :=
  match v with
  | VUndefined | VNull => inl (TypeError "Cannot read properties of null")
  | VObj fields => inr (default VUndefined (fields !! name))
  | _ => inr VUndefined
  end.

(** [data.name] on the caller's object. *)
Definition field (data : gmap string Value) (name : string) : Value :=
  default VUndefined (data !! name).

(** The browser as the adapter sees it: whether [window] is defined, the
    content of [localStorage], whether [getItem] throws, for which key and
    text [setItem] throws (a full quota), and the events handed to
    [window.dispatchEvent], oldest first, each with its [detail]. *)
Record Browser : Type := mkBrowser {
  has_window : bool;
  items : gmap string string;
  getItem_throws : bool;
  setItem_throws : string -> string -> bool;
  dispatched : list (string * Value)
}.

Definition AGENTS_STORAGE_PREFIX : string := "freely_agents_".

Definition STORAGE_KEYS_messages (sessionId : string) : string :=
  AGENTS_STORAGE_PREFIX +:+ "messages_" +:+ sessionId.

Definition STORAGE_KEYS_session (sessionId : string) : string :=
  AGENTS_STORAGE_PREFIX +:+ "session_" +:+ sessionId.

Definition STORAGE_KEYS_task (taskId : string) : string :=
  AGENTS_STORAGE_PREFIX +:+ "task_" +:+ taskId.

Definition PROVIDER_VAR_PREFIX : string := "freely_provider_var_".

(** [window.dispatchEvent(new CustomEvent(type, { detail }))] behind
    [typeof window !== 'undefined'] *)
Definition dispatchEvent (b : Browser) (type : string) (detail : Value)
  : Browser :=
  if has_window b then
    mkBrowser (has_window b) (items b) (getItem_throws b) (setItem_throws b)
      (dispatched b ++ [(type, detail)])
  else b.

Section Codec.
(** [JSON.parse] ([None]: it throws) and [JSON.stringify] are the
    platform's and are taken as they come. *)
Variable JSON_parse : string -> option Value.
Variable JSON_stringify : Value -> string.

Definition readJson (b : Browser) (key : string) (fallback : Value) : Value :=
  if negb (has_window b) then fallback
  else if getItem_throws b then fallback
  else
    match items b !! key with
    | None => fallback
    | Some raw =>
        if String.eqb raw "" then fallback
        else
          match JSON_parse raw with
          | Some v => v
          | None => fallback
          end
    end.

Definition writeJson (b : Browser) (key : string) (value : Value) : Browser :=
  if negb (has_window b) then b
  else if setItem_throws b key (JSON_stringify value) then b
  else
    mkBrowser (has_window b) (<[key := JSON_stringify value]> (items b))
      (getItem_throws b) (setItem_throws b) (dispatched b).

(** *** Messages *)

(** [existing.findIndex((m) => m.message_id === message.message_id)] over
    the elements from position [i] on. *)
Fixpoint findIndex_from (i : nat) (elements : list Value) (message_id : Value)
  : Result (option nat) :=
  match elements with
  | [] => inr None
  | m :: rest =>
      match get_field m "message_id" with
      | inl t => inl t
      | inr v =>
          if strict_equal v message_id then inr (Some i)
          else findIndex_from (S i) rest message_id
      end
  end.

(** The replacement or [push] both [create] methods do on what they read;
    anything but an array has no [findIndex]. *)
Definition upsert (existing : Value) (message : gmap string Value)
  : Result (list Value) :=
  match existing with
  | VArr elements =>
      match findIndex_from 0 elements (field message "message_id") with
      | inl t => inl t
      | inr (Some idx) => inr (<[idx := VObj message]> elements)
      | inr None => inr (elements ++ [VObj message])
      end
  | _ => inl (TypeError "existing.findIndex is not a function")
  end.


(** [LocalStorageMessagesRepository.findBySessionId] *)
Definition findBySessionId (b : Browser) (sessionId : string) : Value :=
  readJson b (STORAGE_KEYS_messages sessionId) (VArr []).

(** [LocalStorageMessagesRepository.create] *)
Definition MessagesRepository_create (b : Browser) (message : gmap string Value)
  : Browser * Result Value :=
  let key := STORAGE_KEYS_messages (to_string (field message "session_id")) in
  match upsert (readJson b key (VArr [])) message with
  | inl t => (b, inl t)
  | inr existing => (writeJson b key (VArr existing), inr (VObj message))
  end.

(** *** Tasks *)

(** [LocalStorageTasksService.get] *)
Definition TasksService_get (b : Browser) (id : string) : Result Value :=
  let task := readJson b (STORAGE_KEYS_task id) VNull in
  if negb (truthy task) then
    inl (ThrownError (new_Error
      ("TasksService.get: task " +:+ String (ascii_of_nat 34) id
       +:+ String (ascii_of_nat 34) " not found")))
  else inr task.

(** [{ ...existing, ...data, [idName]: id, updated_at: now }] *)
Definition merge_record (existing : Value) (data : gmap string Value)
    (idName id now : string) : gmap string Value :=
  <["updated_at" := VStr now]>
    (<[idName := VStr id]> (data ∪ own_properties existing)).

(** [LocalStorageTasksService.patch]; [created] and [now] are the texts of
    the two [new Date().toISOString()]. *)
Definition TasksService_patch (b : Browser) (id : string)
    (data : gmap string Value) (created now : string) : Browser * Value :=
  let key := STORAGE_KEYS_task id in
  let read := readJson b key VNull in
  let existing :=
    if nullish read then
      VObj (<["created_at" := VStr created]>
              (<["status" := VStr "active"]>
                 (<["session_id" := VStr ""]> {[ "task_id" := VStr id ]})))
    else read in
  let updated := VObj (merge_record existing data "task_id" id now) in
  let b1 := writeJson b key updated in
  (dispatchEvent b1 "freely:task:updated" updated, updated).

(** [LocalStorageTasksService.ensureTask] *)
Definition ensureTask (b : Browser) (taskId sessionId : string)
    (created now : string) : Browser * Value :=
  let key := STORAGE_KEYS_task taskId in
  let existing := readJson b key VNull in
  if truthy existing then (b, existing)
  else
    let task :=
      VObj (<["updated_at" := VStr now]>
              (<["created_at" := VStr created]>
                 (<["status" := VStr "active"]>
                    (<["session_id" := VStr sessionId]>
                       {[ "task_id" := VStr taskId ]})))) in
    (writeJson b key task, task).

(** *** Sessions *)

(** The record [patch] and [update] start from. *)
Definition session_or_new (b : Browser) (sessionId created : string) : Value :=
  let read := readJson b (STORAGE_KEYS_session sessionId) VNull in
  if nullish read then
    VObj (<["created_at" := VStr created]> {[ "session_id" := VStr sessionId ]})
  else read.

(** [LocalStorageSessionsService.patch] *)
Definition SessionsService_patch (b : Browser) (id : string)
    (data : gmap string Value) (created now : string) : Browser * Value :=
  let updated :=
    VObj (merge_record (session_or_new b id created) data "session_id" id now) in
  let b1 := writeJson b (STORAGE_KEYS_session id) updated in
  (dispatchEvent b1 "freely:session:updated" updated, updated).

(** [LocalStorageSessionsRepository.findById] *)
Definition findById (b : Browser) (sessionId : string) : Value :=
  readJson b (STORAGE_KEYS_session sessionId) VNull.

(** [LocalStorageSessionsRepository.update] *)
Definition SessionsRepository_update (b : Browser) (sessionId : string)
    (data : gmap string Value) (created now : string) : Browser * Value :=
  let updated :=
    VObj (merge_record (session_or_new b sessionId created) data
            "session_id" sessionId now) in
  (writeJson b (STORAGE_KEYS_session sessionId) updated, updated).

(** [LocalStorageSessionsRepository.ensureSession] *)
Definition ensureSession (b : Browser) (sessionId toolType : string)
    (created now : string) : Browser * Value :=
  let key := STORAGE_KEYS_session sessionId in
  let existing := readJson b key VNull in
  if truthy existing then (b, existing)
  else
    let session :=
      VObj (<["updated_at" := VStr now]>
              (<["created_at" := VStr created]>
                 (<["tool_type" := VStr toolType]>
                    {[ "session_id" := VStr sessionId ]}))) in
    (writeJson b key session, session).

(** *** Vocabulary of the properties *)

(** [setItem] takes the text of [v] under [key], and that text parses back
    to [v]. *)
Definition stores (b : Browser) (key : string) (v : Value) : Prop :=
  setItem_throws b key (JSON_stringify v) = false /\
  String.eqb (JSON_stringify v) "" = false /\
  JSON_parse (JSON_stringify v) = Some v.
End Codec.

(** A page whose storage can be read. *)
Definition readable (b : Browser) : Prop :=
  has_window b = true /\ getItem_throws b = false.

(** *** Provider variables *)

(** [setProviderVariable] *)
Definition setProviderVariable (b : Browser) (name value : string) : Browser :=
  if negb (has_window b) then b
  else if setItem_throws b (PROVIDER_VAR_PREFIX +:+ name) value then b
  else
    mkBrowser (has_window b)
      (<[PROVIDER_VAR_PREFIX +:+ name := value]> (items b))
      (getItem_throws b) (setItem_throws b) (dispatched b).

Section Providers.
(** The fall-back of [getProviderVariable]: the scan of the parsed
    [curl_custom_ai_providers] for [p.variables?.[name]], with its [catch];
    [p.variables[name]] can reach members of prototypes, which are outside
    these values, so the scan is taken as it comes. *)
Variable scanProviders : string -> string -> option string.

(** [getProviderVariable] *)
Definition getProviderVariable (b : Browser) (name : string) : option string :=
  if negb (has_window b) then None
  else if getItem_throws b then None
  else
    match items b !! (PROVIDER_VAR_PREFIX +:+ name) with
    | Some direct =>
        if negb (String.eqb direct "") then Some direct
        else
          match items b !! "curl_custom_ai_providers" with
          | None => None
          | Some providersRaw =>
              if String.eqb providersRaw "" then None
              else scanProviders providersRaw name
          end
    | None =>
        match items b !! "curl_custom_ai_providers" with
        | None => None
        | Some providersRaw =>
            if String.eqb providersRaw "" then None
            else scanProviders providersRaw name
        end
    end.
End Providers.

(** *** A codec for the examples *)

(** The text between the double quotes of [s], and around them. *)
Fixpoint split_quotes (s : string) : list string :=
  match s with
  | EmptyString => [EmptyString]
  | String c rest =>
      match split_quotes rest with
      | [] => []
      | t :: ts =>
          if Ascii.eqb c (ascii_of_nat 34) then EmptyString :: t :: ts
          else String c t :: ts
      end
  end.

Definition quoted (s : string) : string :=
  String (ascii_of_nat 34) s +:+ String (ascii_of_nat 34) EmptyString.

Fixpoint join_with (sep : string) (l : list string) : string :=
  match l with
  | [] => ""
  | [x] => x
  | x :: rest => x +:+ sep +:+ join_with sep rest
  end.

Definition record_text (fields : gmap string Value) : string :=
  "{"
  +:+ join_with ","
        (map (fun kv => quoted kv.1 +:+ ":" +:+
                        match kv.2 with
                        | VStr s => quoted s
                        | _ => "null"
                        end)
           (map_to_list fields))
  +:+ "}".

(** A stand-in for [JSON.stringify] on the values of the examples: a
    record of strings, or an array of such records, the strings without
    quotes and backslashes. *)
Definition flat_stringify (v : Value) : string :=
  match v with
  | VObj fields => record_text fields
  | VArr elements =>
      "["
      +:+ join_with ","
            (map (fun x => match x with
                           | VObj fields => record_text fields
                           | _ => "null"
                           end) elements)
      +:+ "]"
  | _ => "null"
  end.

(** The fields of one record, up to the text that closes it. *)
Fixpoint parse_fields (tokens : list string) (acc : gmap string Value)
  : option (gmap string Value * string * list string) :=
  match tokens with
  | k :: colon :: v :: sep :: rest =>
      if String.eqb colon ":" then
        if String.eqb sep "," then parse_fields rest (<[k := VStr v]> acc)
        else Some (<[k := VStr v]> acc, sep, rest)
      else None
  | _ => None
  end.

Fixpoint parse_records (fuel : nat) (tokens : list string) (acc : list Value)
  : option (list Value) :=
  match fuel with
  | O => None
  | S fuel' =>
      match parse_fields tokens ∅ with
      | Some (fields, sep, rest) =>
          if String.eqb sep "},{" then
            parse_records fuel' rest (acc ++ [VObj fields])
          else if String.eqb sep "}]" then
            match rest with
            | [] => Some (acc ++ [VObj fields])
            | _ => None
            end
          else None
      | None => None
      end
  end.

(** A stand-in for [JSON.parse] on the texts [flat_stringify] writes. *)
Definition flat_parse (s : string) : option Value :=
  if String.eqb s "null" then Some VNull
  else if String.eqb s "[]" then Some (VArr [])
  else if String.eqb s "{}" then Some (VObj ∅)
  else
    match split_quotes s with
    | first :: tokens =>
        if String.eqb first "{" then
          match parse_fields tokens ∅ with
          | Some (fields, sep, []) =>
              if String.eqb sep "}" then Some (VObj fields) else None
          | _ => None
          end
        else if String.eqb first "[{" then
          VArr <$> parse_records (length tokens) tokens []
        else None
    | [] => None
    end.

(** Sample browsers: a page with an empty storage, one whose storage is
    full, and a process without [window]. *)
Definition fresh_page : Browser := mkBrowser true ∅ false (fun _ _ => false) [].

Definition full_page : Browser := mkBrowser true ∅ false (fun _ _ => true) [].

Definition no_window : Browser := mkBrowser false ∅ false (fun _ _ => false) [].

Definition sample_message (message_id text : string) : gmap string Value :=
  <["content" := VStr text]>
    (<["session_id" := VStr "s1"]> {[ "message_id" := VStr message_id ]}).

(** A page on which the message [m1] of session [s1] has been stored. *)
Definition page_with_message : Browser :=
  (MessagesRepository_create flat_parse flat_stringify fresh_page
     (sample_message "m1" "hi")).1.

End Storage.

(** * Properties *)

(** ** Permission-mode translation *)

Module PermissionProps.
Import Permission.

(** Split on every string comparison of the goal. *)
Ltac string_cases :=
  repeat match goal with
         | |- context [String.eqb ?a ?b] =>
             destruct (String.eqb_spec a b); subst; cbn
         end.

Lemma mapPermissionMode_fuel_succ (fuel : nat) (pm : option string) :
  mapPermissionMode_fuel GEMINI_DEFAULT_PERMISSION_MODE (S fuel) pm
  = match mapPermissionMode_case pm with
    | Some m => Some m
    | None => Some AUTO_EDIT
    end.
Proof.
  cbn [mapPermissionMode_fuel].
  destruct (mapPermissionMode_case pm); [reflexivity|].
  destruct fuel; reflexivity.
Qed.

Lemma mapPermissionMode_case_outside (s : string) :
  ~ In s (unified_modes ++ gemini_native_modes) ->
  mapPermissionMode_case (Some s) = None.
Proof.
  intros Hout. unfold mapPermissionMode_case.
  string_cases; try reflexivity; exfalso; apply Hout; cbn; tauto.
Qed.

Lemma translatePermissionMode_outside (s : string) :
  ~ In s unified_modes -> translatePermissionMode s = no_flags.
Proof.
  intros Hout. unfold translatePermissionMode.
  string_cases; try reflexivity; exfalso; apply Hout; cbn; tauto.
Qed.

(** With a default that is not one of the [case] labels the [default:]
    branch would call itself for ever: no budget of nested calls is
    enough. This is why the value of the constant matters. *)
Lemma mapPermissionMode_needs_mapped_default (dflt : string) (fuel : nat) :
  mapPermissionMode_case (Some dflt) = None ->
  mapPermissionMode_fuel dflt fuel None = None.
Proof.
  intros Hd. induction fuel as [|fuel IH]; [reflexivity|].
  cbn [mapPermissionMode_fuel mapPermissionMode_case].
  destruct fuel; cbn [mapPermissionMode_fuel]; rewrite Hd; [reflexivity|].
  cbn [mapPermissionMode_fuel mapPermissionMode_case] in IH.
  destruct fuel; cbn [mapPermissionMode_fuel] in *; rewrite ?Hd in *; exact IH.
Qed.

(** The generic modes the Gemini mapper knows are mapped as its comment
    says, not sent to the default: ['ask'] prompts, ['allow-all'] approves
    everything. (The test suite expects the default for both.) *)
Example gemini_generic_modes :
  mapPermissionMode (Some "ask") = Some DEFAULT /\
  mapPermissionMode (Some "auto") = Some AUTO_EDIT /\
  mapPermissionMode (Some "on-failure") = Some AUTO_EDIT /\
  mapPermissionMode (Some "allow-all") = Some YOLO.
Proof. repeat split. Qed.

(** C1. Both translators are total: the Gemini mapper returns an approval
    mode for every input with one nested call at most, and the Claude
    translator is a function on all strings by construction. Every unified
    mode maps to a native mode, and an input outside the unified and native
    modes (or no input at all) gets exactly what the agent's default mode
    gets, which is not the mode that approves everything. *)
Theorem permission_translation_total_and_safe :
  (forall pm fuel, exists m,
      mapPermissionMode pm = Some m /\
      mapPermissionMode_fuel GEMINI_DEFAULT_PERMISSION_MODE (S fuel) pm = Some m) /\
  (forall s, In s unified_modes ->
      exists m, mapPermissionMode (Some s) = Some m /\
                In (ApprovalMode_value m) gemini_native_modes) /\
  (forall s, ~ In s (unified_modes ++ gemini_native_modes) ->
      mapPermissionMode (Some s)
      = mapPermissionMode (Some GEMINI_DEFAULT_PERMISSION_MODE) /\
      mapPermissionMode (Some s) = Some AUTO_EDIT /\
      gemini_elevated AUTO_EDIT = false) /\
  mapPermissionMode None
  = mapPermissionMode (Some GEMINI_DEFAULT_PERMISSION_MODE) /\
  (forall s, ~ In s unified_modes ->
      translatePermissionMode s
      = translatePermissionMode CLAUDE_DEFAULT_PERMISSION_MODE /\
      claude_elevated (translatePermissionMode s) = false).
Proof.
  split; [|split; [|split; [|split]]].
  - intros pm fuel. unfold mapPermissionMode.
    rewrite !mapPermissionMode_fuel_succ.
    destruct (mapPermissionMode_case pm); eauto.
  - intros s _. unfold mapPermissionMode.
    rewrite mapPermissionMode_fuel_succ.
    destruct (mapPermissionMode_case (Some s)) as [[]|];
      eexists; (split; [reflexivity|cbn; tauto]).
  - intros s Hout. unfold mapPermissionMode.
    rewrite !mapPermissionMode_fuel_succ.
    rewrite (mapPermissionMode_case_outside s Hout). auto.
  - reflexivity.
  - intros s Hout. rewrite (translatePermissionMode_outside s Hout). auto.
Qed.

Lemma not_in_modes (s : string) (l : list string) :
  forallb (fun m => negb (String.eqb s m)) l = true -> ~ In s l.
Proof.
  intros Hall Hin. rewrite forallb_forall in Hall.
  specialize (Hall s Hin). rewrite String.eqb_refl in Hall. discriminate.
Qed.

(** The inputs of the test suite's security case. *)
Lemma permission_translation_witness :
  mapPermissionMode (Some "sudo") = Some AUTO_EDIT /\
  mapPermissionMode (Some "YOLO") = Some AUTO_EDIT /\
  mapPermissionMode (Some "") = Some AUTO_EDIT /\
  claude_elevated (translatePermissionMode "bypass-all") = false.
Proof.
  destruct permission_translation_total_and_safe as (_ & _ & Hg & _ & Hc).
  split; [|split; [|split]].
  - apply (Hg "sudo"), not_in_modes; reflexivity.
  - apply (Hg "YOLO"), not_in_modes; reflexivity.
  - apply (Hg ""), not_in_modes; reflexivity.
  - apply (Hc "bypass-all"), not_in_modes; reflexivity.
Defined.

(** C9. Seen as a map from mode strings to mode strings, the Gemini mapper
    is idempotent, and the designated default mode is a fixed point. *)
Theorem gemini_translate_idempotent :
  (forall x, gemini_translate x ≫= gemini_translate = gemini_translate x) /\
  gemini_translate GEMINI_DEFAULT_PERMISSION_MODE
  = Some GEMINI_DEFAULT_PERMISSION_MODE.
Proof.
  split; [|reflexivity].
  intros x. unfold gemini_translate, mapPermissionMode.
  rewrite mapPermissionMode_fuel_succ.
  destruct (mapPermissionMode_case (Some x)) as [[]|]; reflexivity.
Qed.

End PermissionProps.

(** ** Codex normaliser *)

Module CodexNormalizerProps.
Import Js CodexNormalizer.

(** C10. Whatever the default model and the limit lookup are, the
    normalised usage has [totalTokens = inputTokens + outputTokens] and
    [cacheCreationTokens = 0]; an event without usage gives all-zero counts,
    the default model and its limit. [normalize] is a total function: there
    is no input on which it fails. *)
Theorem normalize_token_usage :
  forall (DEFAULT_CODEX_MODEL : string)
         (getCodexContextWindowLimit : option string -> Z)
         (event : CodexSdkResponse),
    let r := normalize DEFAULT_CODEX_MODEL getCodexContextWindowLimit event in
    totalTokens (tokenUsage r)
    = inputTokens (tokenUsage r) + outputTokens (tokenUsage r) /\
    cacheCreationTokens (tokenUsage r) = 0 /\
    primaryModel r = DEFAULT_CODEX_MODEL /\
    contextWindowLimit r = getCodexContextWindowLimit (Some DEFAULT_CODEX_MODEL) /\
    (usage event = None ->
     tokenUsage r = mkTokenUsage 0 0 0 0 0 /\ durationMs r = None) /\
    (forall u, usage event = Some u ->
     inputTokens (tokenUsage r) = or0 (input_tokens u) /\
     outputTokens (tokenUsage r) = or0 (output_tokens u) /\
     cacheReadTokens (tokenUsage r) = or0 (cached_input_tokens u)).
Proof.
  intros D lim event r. subst r. unfold normalize.
  destruct (usage event) as [u|]; cbn; repeat split; try reflexivity;
    try discriminate; intros; try congruence.
  all: match goal with H : Some _ = Some _ |- _ => inversion H; subst end;
    reflexivity.
Qed.

(** The events of the test suite: usage present, and usage absent. *)
Lemma normalize_token_usage_witness :
  tokenUsage (normalize "gpt-5-codex" (fun _ => 200000)
                (mkResponse "turn.completed"
                   (Some (mkUsage (Some 1200) (Some 800) (Some 300) None)) None))
  = mkTokenUsage 1200 800 2000 300 0 /\
  tokenUsage (normalize "gpt-5-codex" (fun _ => 200000)
                (mkResponse "turn.completed" None None))
  = mkTokenUsage 0 0 0 0 0.
Proof.
  split.
  - reflexivity.
  - apply (normalize_token_usage "gpt-5-codex" (fun _ => 200000)
             (mkResponse "turn.completed" None None)).
    reflexivity.
Defined.

End CodexNormalizerProps.

(** ** Agent adapters *)

Module AdapterProps.
Import Js Adapter.

Lemma initialize_when_initialized k auth a :
  isInitialized a = true -> initialize k auth a = (a, inr tt).
Proof. intros H. unfold initialize. rewrite H. reflexivity. Qed.

(** [execute] starts by making sure the adapter is initialised. *)
Lemma execute_unfold k executePrompt auth now a sessionId prompt :
  execute k executePrompt auth now a sessionId prompt
  = let '(a1, ready) := initialize k auth a in
    match ready with
    | inl t => (a1, inl t)
    | inr _ =>
        match sessions a1 !! sessionId with
        | None => (a1, inl (session_not_found sessionId))
        | Some session =>
            match run_prompt executePrompt auth session prompt with
            | inr response =>
                (touch_session a1 sessionId session running now, inr response)
            | inl thrown =>
                (touch_session a1 sessionId session failed now, inl thrown)
            end
        end
    end.
Proof.
  unfold execute. destruct (isInitialized a) eqn:Hi; [|reflexivity].
  rewrite (initialize_when_initialized k auth a Hi). reflexivity.
Qed.

Lemma touch_session_lookup a sessionId session s now :
  sessions (touch_session a sessionId session s now) !! sessionId
  = Some (mkSessionState (config session) s (createdAt session) now
            (taskIds session)).
Proof. unfold touch_session. cbn. apply lookup_insert_eq. Qed.

Lemma touch_session_other a sessionId session s now other :
  other <> sessionId ->
  sessions (touch_session a sessionId session s now) !! other
  = sessions a !! other.
Proof. intros Hne. unfold touch_session. cbn. by apply lookup_insert_ne. Qed.

Lemma sample_lookup : sessions sample_adapter !! "s1" = Some sample_session.
Proof. unfold sample_adapter. cbn. apply lookup_singleton_eq. Qed.

Lemma sample_execute :
  ClaudeCodeAdapter_execute None auth_ok 2000 sample_adapter "s1" "hello"
  = (touch_session sample_adapter "s1" sample_session running 2000,
     executeClaudeCodePrompt None sample_session "hello" "token").
Proof.
  unfold ClaudeCodeAdapter_execute. rewrite execute_unfold.
  rewrite (initialize_when_initialized _ _ sample_adapter eq_refl).
  rewrite sample_lookup. reflexivity.
Qed.

(** C4, as the specification states it, fails: after a successful
    [execute] of the Claude Code adapter on an idle session the session is
    [running], neither [idle] nor [completed], although no turn is in
    flight any more. *)
Lemma execute_leaves_session_running :
  exists a' response,
    ClaudeCodeAdapter_execute None auth_ok 2000 sample_adapter "s1" "hello"
    = (a', inr response) /\
    ~ settled_after_turn a' "s1".
Proof.
  rewrite sample_execute. eexists _, _. split; [reflexivity|].
  intros (st & Hst & Hs). rewrite touch_session_lookup in Hst.
  inversion Hst; subst. cbn in Hs. destruct Hs; discriminate.
Qed.

(** C4, amended. A session is created [idle]; a successful [execute]
    leaves it [running], with [updatedAt] refreshed; [terminateSession]
    makes it [completed]. *)
Theorem successful_turn_state_machine :
  forall (k : AgentKind)
         (executePrompt : SessionState -> string -> AuthCredentials ->
                          Result AgentResponse)
         (auth : IAuthProvider) (now : Z),
    (forall a cfg,
        status (createSession now a cfg).2 = idle /\
        sessions (createSession now a cfg).1 !! id cfg
        = Some (createSession now a cfg).2) /\
    (forall a sessionId prompt a' response,
        execute k executePrompt auth now a sessionId prompt = (a', inr response) ->
        exists st, sessions a' !! sessionId = Some st /\
                   status st = running /\ updatedAt st = now) /\
    (forall a sessionId a',
        terminateSession now a sessionId = (a', inr tt) ->
        exists st, sessions a' !! sessionId = Some st /\ status st = completed).
Proof.
  intros k executePrompt auth now. split; [|split].
  - intros a cfg. split; [reflexivity|]. cbn. apply lookup_insert_eq.
  - intros a sessionId prompt a' response. rewrite execute_unfold.
    destruct (initialize k auth a) as [a1 [t|[]]]; [discriminate|].
    destruct (sessions a1 !! sessionId) as [session|]; [|discriminate].
    destruct (run_prompt executePrompt auth session prompt); [discriminate|].
    intros H. inversion H; subst.
    eexists. split; [apply touch_session_lookup|]. split; reflexivity.
  - intros a sessionId a'. unfold terminateSession.
    destruct (sessions a !! sessionId) as [session|]; [|discriminate].
    intros H. inversion H; subst.
    eexists. split; [apply touch_session_lookup|]. reflexivity.
Qed.

Lemma successful_turn_state_machine_witness :
  exists st,
    sessions (ClaudeCodeAdapter_execute None auth_ok 2000 sample_adapter
                "s1" "hello").1 !! "s1" = Some st /\
    status st = running /\ updatedAt st = 2000.
Proof.
  destruct (successful_turn_state_machine ClaudeCode
              (executeClaudeCodePrompt None) auth_ok 2000) as (_ & Hexec & _).
  pose proof sample_execute as Hrun.
  unfold ClaudeCodeAdapter_execute in *. rewrite Hrun.
  exact (Hexec _ _ _ _ _ Hrun).
Defined.

(** C5, as the specification states it, fails: when the credentials
    cannot be read inside the turn, the Claude Code adapter raises that very
    error, not an [ExecutionError] that wraps it. *)
Lemma failed_turn_rethrows_cause :
  exists a' raised,
    ClaudeCodeAdapter_execute None auth_failing 2000 sample_adapter "s1" "hello"
    = (a', inl raised) /\
    raised = keychain_locked /\
    ~ is_ExecutionError_wrapping keychain_locked raised.
Proof.
  unfold ClaudeCodeAdapter_execute. rewrite execute_unfold.
  rewrite (initialize_when_initialized _ _ sample_adapter eq_refl).
  rewrite sample_lookup. cbn [run_prompt auth_failing getCredentials].
  eexists _, _. split; [reflexivity|]. split; [reflexivity|].
  intros (e & c & He & Hname & _). inversion He; subst. discriminate.
Qed.

(** C5, amended. When the adapter is (or becomes) initialised, the
    session exists and a call inside the turn fails, [execute] marks the
    session [failed], refreshes [updatedAt], leaves the other sessions
    alone and raises the original error itself; it returns no response. *)
Theorem failed_turn_marks_session_failed :
  forall (k : AgentKind)
         (executePrompt : SessionState -> string -> AuthCredentials ->
                          Result AgentResponse)
         (auth : IAuthProvider) (now : Z)
         (a a1 : AdapterState) (sessionId prompt : string)
         (session : SessionState) (cause : Thrown),
    initialize k auth a = (a1, inr tt) ->
    sessions a1 !! sessionId = Some session ->
    run_prompt executePrompt auth session prompt = inl cause ->
    exists a',
      execute k executePrompt auth now a sessionId prompt = (a', inl cause) /\
      sessions a' !! sessionId
      = Some (mkSessionState (config session) failed (createdAt session) now
                (taskIds session)) /\
      (forall other, other <> sessionId ->
                     sessions a' !! other = sessions a1 !! other).
Proof.
  intros k executePrompt auth now a a1 sessionId prompt session cause
         Hinit Hsession Hfail.
  rewrite execute_unfold, Hinit, Hsession, Hfail.
  eexists. split; [reflexivity|]. split.
  - apply touch_session_lookup.
  - intros other Hne. by apply touch_session_other.
Qed.

Lemma failed_turn_marks_session_failed_witness :
  exists a',
    CodexAdapter_execute auth_failing 2000 sample_adapter "s1" "hello"
    = (a', inl keychain_locked) /\
    sessions a' !! "s1"
    = Some (mkSessionState sample_config failed 1000 2000 []).
Proof.
  destruct (failed_turn_marks_session_failed Codex executeCodexPrompt
              auth_failing 2000 sample_adapter sample_adapter "s1" "hello"
              sample_session keychain_locked)
    as (a' & Hexec & Hfailed & _).
  - reflexivity.
  - exact sample_lookup.
  - reflexivity.
  - exists a'. split; [exact Hexec | exact Hfailed].
Defined.

End AdapterProps.

(** ** MCP server scoping *)

Module McpProps.
Import Js Mcp.

Lemma collect_dedupe (src : Source) (l : list MCPServer) :
  forall (seen : gset string) (out : list MCPServerWithSource),
    collect src l (seen, out)
    = (seen ∪ id_set (tag src l), out ++ dedupe_by_id seen (tag src l)).
Proof.
  unfold collect, id_set.
  induction l as [|s l IH]; intros seen out; cbn [fold_left tag map dedupe_by_id].
  - rewrite app_nil_r. f_equal. set_solver.
  - unfold push_unseen at 2. cbn [fst snd server entry_id].
    destruct (decide (mcp_server_id s ∈ seen)) as [Hin|Hout].
    + rewrite IH. f_equal. unfold tag. cbn. set_solver.
    + rewrite IH. rewrite <- app_assoc. cbn [app]. f_equal.
      unfold tag. cbn. set_solver.
Qed.

Lemma dedupe_by_id_app (l1 l2 : list MCPServerWithSource) :
  forall seen,
    dedupe_by_id seen (l1 ++ l2)
    = dedupe_by_id seen l1 ++ dedupe_by_id (seen ∪ id_set l1) l2.
Proof.
  unfold id_set.
  induction l1 as [|e l1 IH]; intros seen; cbn [app dedupe_by_id map].
  - f_equal. set_solver.
  - destruct (decide (mcp_server_id (server e) ∈ seen)) as [Hin|Hout].
    + rewrite IH. do 2 f_equal. unfold entry_id. cbn. set_solver.
    + cbn [app]. rewrite IH. do 3 f_equal. unfold entry_id. cbn. set_solver.
Qed.

Lemma dedupe_by_id_subset (l : list MCPServerWithSource) :
  forall seen e, In e (dedupe_by_id seen l) -> In e l /\ entry_id e ∉ seen.
Proof.
  induction l as [|x l IH]; intros seen e; cbn [dedupe_by_id]; [intros []|].
  destruct (decide (mcp_server_id (server x) ∈ seen)) as [Hin|Hout].
  - intros He. destruct (IH _ _ He). split; [right|]; assumption.
  - intros [<-|He].
    + split; [left; reflexivity|exact Hout].
    + destruct (IH _ _ He) as [H1 H2]. split; [right; exact H1|].
      set_solver.
Qed.

Lemma dedupe_by_id_NoDup (l : list MCPServerWithSource) :
  forall seen, List.NoDup (map entry_id (dedupe_by_id seen l)).
Proof.
  induction l as [|x l IH]; intros seen; cbn [dedupe_by_id].
  - constructor.
  - destruct (decide (mcp_server_id (server x) ∈ seen)) as [Hin|Hout]; [apply IH|].
    cbn [map]. constructor; [|apply IH].
    intros Hx. apply in_map_iff in Hx. destruct Hx as (e & He & Hin).
    apply dedupe_by_id_subset in Hin. destruct Hin as [_ Hne].
    apply Hne. unfold entry_id in *. rewrite He. set_solver.
Qed.

Lemma dedupe_by_id_complete (l : list MCPServerWithSource) :
  forall seen e, In e l -> entry_id e ∉ seen ->
    exists e', In e' (dedupe_by_id seen l) /\ entry_id e' = entry_id e.
Proof.
  induction l as [|x l IH]; intros seen e; cbn [dedupe_by_id]; [intros []|].
  intros [->|He] Hout.
  - destruct (decide (mcp_server_id (server e) ∈ seen)) as [Hin|_];
      [contradiction|].
    exists e. split; [left|]; reflexivity.
  - destruct (decide (mcp_server_id (server x) ∈ seen)) as [Hin|Hx];
      [apply IH; assumption|].
    destruct (decide (entry_id e = entry_id x)) as [Heq|Hne].
    + exists x. split; [left; reflexivity|symmetry; exact Heq].
    + destruct (IH ({[mcp_server_id (server x)]} ∪ seen) e He) as (e' & H1 & H2).
      { unfold entry_id in *. set_solver. }
      exists e'. split; [right; exact H1|exact H2].
Qed.

Section Loop.
Variable TemplateContext : Type.
Variable resolve : MCPServer -> TemplateContext -> ResolveResult.
Variable ctx : TemplateContext.

Lemma template_loop_spec (pre : list MCPServerWithSource) :
  forall suf,
    template_loop TemplateContext resolve ctx (length pre) (pre ++ suf)
    = Some (map (resolve_entry TemplateContext resolve ctx)
              (List.filter
                 (fun e => negb (required_unresolved TemplateContext resolve ctx
                                   (server e))) pre)
            ++ suf).
Proof.
  induction pre as [|x pre IH] using rev_ind; intros suf; [reflexivity|].
  rewrite length_app, Nat.add_1_r. cbn [template_loop].
  rewrite <- app_assoc. cbn [app].
  rewrite list_lookup_middle by reflexivity.
  rewrite List.filter_app, map_app. cbn [List.filter].
  unfold required_unresolved, resolve_entry.
  destruct (hasTemplates (server x)) eqn:Ht; cbn [andb negb].
  - destruct (isValid (resolve (server x) ctx)) eqn:Hv; cbn [negb].
    + replace (length pre) with (length pre + 0)%nat at 2 by lia.
      rewrite insert_app_r. cbn [insert list_insert].
      rewrite IH. cbn [map]. rewrite Ht. rewrite <- app_assoc. reflexivity.
    + rewrite delete_middle, IH. cbn [map]. rewrite app_nil_r. reflexivity.
  - rewrite IH. cbn [map]. rewrite Ht. rewrite <- app_assoc. reflexivity.
Qed.

Lemma in_tag (src : Source) (l : list MCPServer) (e : MCPServerWithSource) :
  In e (tag src l) -> source e = src /\ In (server e) l.
Proof.
  unfold tag. intros He. apply in_map_iff in He.
  destruct He as (s & <- & Hs). split; [reflexivity|exact Hs].
Qed.

Lemma id_set_tag (src : Source) (l : list MCPServer) (i : string) :
  i ∈ id_set (tag src l) <-> In i (map mcp_server_id l).
Proof.
  unfold id_set, tag. rewrite elem_of_list_to_set, list_elem_of_In.
  rewrite map_map. reflexivity.
Qed.

Lemma candidates_split (G A : list MCPServer) :
  candidates G A
  = dedupe_by_id ∅ (tag global G)
    ++ dedupe_by_id (∅ ∪ id_set (tag global G)) (tag session_assigned A).
Proof. unfold candidates. apply dedupe_by_id_app. Qed.

Lemma resolve_entry_id (e : MCPServerWithSource) :
  (forall s, mcp_server_id (resolved_server (resolve s ctx)) = mcp_server_id s) ->
  entry_id (resolve_entry TemplateContext resolve ctx e) = entry_id e.
Proof.
  intros Hid. unfold resolve_entry, entry_id.
  destruct (hasTemplates (server e)); [apply Hid|reflexivity].
Qed.

Lemma NoDup_filter_map_id (l : list MCPServerWithSource)
    (f : MCPServerWithSource -> bool) :
  List.NoDup (map entry_id l) -> List.NoDup (map entry_id (List.filter f l)).
Proof.
  induction l as [|x l IH]; cbn [map List.filter]; [intros; constructor|].
  intros Hnd. inversion Hnd as [|? ? Hx Hl]; subst.
  destruct (f x); cbn [map]; [|apply IH, Hl].
  constructor; [|apply IH, Hl].
  intros Hin. apply Hx. apply in_map_iff in Hin.
  destruct Hin as (e & He & Hf). apply filter_In in Hf.
  apply in_map_iff. exists e. tauto.
Qed.

(** C2. With both repositories at hand and answering, the resolver
    returns the specification's set: the candidates are the servers of
    [G] followed by those of [A], one per id, the first (hence the global
    one) winning; a candidate whose templates did not resolve is left out,
    the others are returned in that order with their fields resolved. *)
Theorem getMcpServersForSession_scoping :
  forall (sessionId : string) (deps : MCPResolutionDeps)
         (sessionRepo : SessionMCPServerRepository)
         (serverRepo : MCPServerRepository)
         (G A : list MCPServer),
    sessionMCPRepo deps = Some sessionRepo ->
    mcpServerRepo deps = Some serverRepo ->
    findAll serverRepo "global" true (forUserId deps) = inr (Some G) ->
    listServers sessionRepo sessionId true = inr A ->
    getMcpServersForSession TemplateContext resolve ctx sessionId deps
    = spec_resolver TemplateContext resolve ctx G A /\
    List.NoDup (map entry_id (candidates G A)) /\
    (forall s, In s (G ++ A) ->
       exists e, In e (candidates G A) /\ entry_id e = mcp_server_id s) /\
    (exists cg ca,
       candidates G A = cg ++ ca /\
       Forall (fun e => source e = global /\ In (server e) G) cg /\
       Forall (fun e => source e = session_assigned /\ In (server e) A /\
                        ~ In (entry_id e) (map mcp_server_id G)) ca) /\
    (forall e, In e (kept TemplateContext resolve ctx G A) ->
       In e (candidates G A) /\
       required_unresolved TemplateContext resolve ctx (server e) = false) /\
    ((forall s, mcp_server_id (resolved_server (resolve s ctx)) = mcp_server_id s) ->
     List.NoDup
       (map entry_id
          (getMcpServersForSession TemplateContext resolve ctx sessionId deps))).
Proof.
  intros sessionId deps sessionRepo serverRepo G A Hs Hm HG HA.
  assert (Hrun : getMcpServersForSession TemplateContext resolve ctx sessionId deps
                 = spec_resolver TemplateContext resolve ctx G A).
  { unfold getMcpServersForSession. rewrite Hs, Hm, HG, HA. cbn [default].
    rewrite !collect_dedupe. cbn [snd app].
    rewrite <- candidates_split.
    rewrite <- (app_nil_r (candidates G A)) at 2.
    rewrite template_loop_spec, app_nil_r. reflexivity. }
  split; [exact Hrun|]. split; [apply dedupe_by_id_NoDup|].
  split; [|split; [|split]].
  - intros s Hin. apply in_app_iff in Hin.
    destruct Hin as [Hin|Hin].
    + apply (dedupe_by_id_complete _ ∅ (mkWithSource s global)); [|set_solver].
      apply in_app_iff. left. unfold tag. apply in_map_iff. eauto.
    + apply (dedupe_by_id_complete _ ∅ (mkWithSource s session_assigned));
        [|set_solver].
      apply in_app_iff. right. unfold tag. apply in_map_iff. eauto.
  - eexists _, _. split; [apply candidates_split|]. split.
    + apply Forall_forall. intros e He. apply list_elem_of_In in He.
      apply dedupe_by_id_subset in He. destruct He as [He _].
      apply in_tag. exact He.
    + apply Forall_forall. intros e He. apply list_elem_of_In in He.
      apply dedupe_by_id_subset in He. destruct He as [He Hid].
      apply in_tag in He. destruct He as [Hsrc HinA].
      split; [exact Hsrc|]. split; [exact HinA|].
      intros Hin. apply Hid. apply elem_of_union_r.
      apply id_set_tag. exact Hin.
  - intros e He. unfold kept in He. apply filter_In in He.
    destruct He as [He Hk]. split; [exact He|].
    apply negb_true_iff. exact Hk.
  - intros Hid. rewrite Hrun. unfold spec_resolver, kept.
    rewrite map_map.
    rewrite (map_ext _ entry_id) by (intros; apply resolve_entry_id, Hid).
    apply NoDup_filter_map_id, dedupe_by_id_NoDup.
Qed.

End Loop.

Lemma scenario_resolved :
  map entry_id
    (getMcpServersForSession _ simple_resolveMcpServerTemplates [] "session-1"
       scenario_deps)
  = ["1"; "3"] /\
  map source
    (getMcpServersForSession _ simple_resolveMcpServerTemplates [] "session-1"
       scenario_deps)
  = [global; session_assigned].
Proof.
  destruct (getMcpServersForSession_scoping _ simple_resolveMcpServerTemplates []
              "session-1" scenario_deps
              (mkSessionRepo (fun _ _ => inr scenario_session))
              (mkMcpRepo (fun _ _ _ => inr (Some scenario_global)))
              scenario_global scenario_session
              eq_refl eq_refl eq_refl eq_refl) as (Hrun & _).
  rewrite Hrun. split; reflexivity.
Defined.

End McpProps.

(** ** Strings *)

Module JsProps.
Import Js.

Lemma has_char_append (c : ascii) (a b : string) :
  has_char c (a +:+ b) = has_char c a || has_char c b.
Proof.
  induction a as [|d a IH]; simpl; [reflexivity|].
  rewrite IH. apply orb_assoc.
Qed.

Lemma prefix_has_char (c : ascii) (needle hay : string) :
  String.prefix needle hay = true ->
  has_char c needle = true -> has_char c hay = true.
Proof.
  revert hay. induction needle as [|d needle IH]; intros hay Hp Hc;
    [discriminate|].
  destruct hay as [|h hay]; [discriminate|]. cbn [String.prefix] in Hp.
  destruct (Ascii.ascii_dec d h) as [->|]; [|discriminate].
  cbn [has_char] in *. apply orb_true_iff in Hc. apply orb_true_iff.
  destruct Hc as [Hc|Hc]; [left; exact Hc|right; eauto].
Qed.

(** A string that lacks a character of the needle does not include it. *)
Lemma includes_has_char (c : ascii) (needle hay : string) :
  has_char c needle = true -> has_char c hay = false ->
  includes needle hay = false.
Proof.
  intros Hc. induction hay as [|h hay IH]; intros Hh.
  - cbn [includes]. destruct (String.prefix needle "") eqn:Hp; [|reflexivity].
    rewrite (prefix_has_char c _ _ Hp Hc) in Hh. discriminate.
  - cbn [includes].
    destruct (String.prefix needle (String h hay)) eqn:Hp.
    + rewrite (prefix_has_char c _ _ Hp Hc) in Hh. discriminate.
    + cbn [has_char] in Hh. apply orb_false_iff in Hh. cbn [orb].
      apply IH, Hh.
Qed.

Lemma digits_lack_b (d : Decimal.uint) :
  has_char "b" (NilEmpty.string_of_uint d) = false.
Proof. induction d; cbn; auto. Qed.

Lemma decimal_lacks_b (d : Decimal.uint) :
  has_char "b" (NilZero.string_of_uint d) = false.
Proof.
  unfold NilZero.string_of_uint.
  destruct d; solve [reflexivity | apply digits_lack_b].
Qed.

Lemma string_of_Z_lacks_b (n : Z) : has_char "b" (string_of_Z n) = false.
Proof.
  unfold string_of_Z, NilZero.string_of_int.
  destruct (Z.to_int n) as [d|d]; [apply decimal_lacks_b|].
  cbn [has_char]. rewrite decimal_lacks_b. reflexivity.
Qed.

End JsProps.

(** ** Claude prompt service *)

Module StreamingProps.
Import Js Streaming JsProps.

(** *** The [catch] block *)

Lemma idle_timeout_is_not_abort (idleMs timeoutMs messageCount : Z) :
  isAbortError
    (ThrownError (new_Error (idle_timeout_message idleMs timeoutMs messageCount)))
  = false.
Proof.
  cbn [isAbortError new_Error error_name error_message]. cbn [String.eqb].
  cbn [orb]. apply (includes_has_char "b"); [reflexivity|].
  unfold idle_timeout_message.
  rewrite !has_char_append, !string_of_Z_lacks_b. reflexivity.
Qed.

(** *** The inner loop *)

Section Handle.
Variable sessionId : string.

Lemma handle_events_ok (repo : SessionRepository) (events : list ProcessedEvent) :
  (forall sid, update repo sessionId sid = None) ->
  handle_events (Some repo) sessionId events
  = (map (action_of sessionId) (before_end events), None).
Proof.
  intros Hok. induction events as [|e events IH]; [reflexivity|].
  destruct e; cbn [handle_events before_end is_end map action_of];
    try (rewrite IH; reflexivity); try reflexivity.
  rewrite Hok, IH. reflexivity.
Qed.

Lemma handle_events_never_yields_capture (sessionsRepo : option SessionRepository)
    (events : list ProcessedEvent) (sid : string) :
  ~ In (session_id_captured sid)
       (yielded (handle_events sessionsRepo sessionId events).1).
Proof.
  induction events as [|e events IH]; [intros []|].
  destruct e; cbn [handle_events];
    try (destruct (handle_events sessionsRepo sessionId events) as [acts t];
         cbn [fst yielded flat_map app In] in *;
         intros [Heq|Hin]; [discriminate|exact (IH Hin)]);
    try (intros []).
  destruct sessionsRepo as [repo|]; [|exact IH].
  destruct (update repo sessionId agentSessionId); [intros []|].
  destruct (handle_events (Some repo) sessionId events) as [acts t].
  exact IH.
Qed.
End Handle.

(** *** The outer loop *)

Lemma last_cons_default (l : list Z) :
  forall a d, List.last (a :: l) d = List.last l a.
Proof.
  induction l as [|z l IH]; intros a d; [reflexivity|].
  change (List.last (a :: z :: l) d) with (List.last (z :: l) d).
  rewrite (IH z d), (IH z a). reflexivity.
Qed.

Lemma yielded_app (a b : list Action) : yielded (a ++ b) = yielded a ++ yielded b.
Proof. unfold yielded. apply flat_map_app. Qed.

Section Loop.
Variable P : SDKMessageProcessor.
Variable sessionId : string.

Lemma stream_loop_emitted (repo : SessionRepository) (msgs : list (Z * SDKMessage)) :
  (forall sid, update repo sessionId sid = None) ->
  forall ps,
    (stream_loop P (Some repo) sessionId ps msgs).1.1
    = map (action_of sessionId) (emitted P ps msgs).
Proof.
  intros Hok. induction msgs as [|[now msg] msgs IH]; intros ps; [reflexivity|].
  cbn [stream_loop emitted].
  destruct (hasTimedOut P ps now); [reflexivity|].
  destruct (process P ps now msg) as [ps1 [t|events]]; [reflexivity|].
  rewrite (handle_events_ok sessionId repo events Hok).
  destruct (existsb is_end events).
  - cbn [fst]. rewrite app_nil_r. reflexivity.
  - specialize (IH ps1).
    destruct (stream_loop P (Some repo) sessionId ps1 msgs) as [[acts' ps'] exit].
    cbn [fst] in *. rewrite map_app, IH. reflexivity.
Qed.

Lemma stream_loop_never_yields_capture (sessionsRepo : option SessionRepository)
    (msgs : list (Z * SDKMessage)) (sid : string) :
  forall ps,
    ~ In (session_id_captured sid)
         (yielded (stream_loop P sessionsRepo sessionId ps msgs).1.1).
Proof.
  induction msgs as [|[now msg] msgs IH]; intros ps; [intros []|].
  cbn [stream_loop].
  destruct (hasTimedOut P ps now); [intros []|].
  destruct (process P ps now msg) as [ps1 [t|events]]; [intros []|].
  pose proof (handle_events_never_yields_capture sessionId sessionsRepo events sid)
    as Hinner.
  destruct (handle_events sessionsRepo sessionId events) as [acts [t|]];
    cbn [fst] in *; [exact Hinner|].
  destruct (existsb is_end events); [exact Hinner|].
  specialize (IH ps1).
  destruct (stream_loop P sessionsRepo sessionId ps1 msgs) as [[acts' ps'] exit].
  cbn [fst] in *. rewrite yielded_app. intros Hin. apply in_app_iff in Hin.
  destruct Hin; [apply Hinner|apply IH]; assumption.
Qed.

(** While the loop keeps asking, the processor's view is the time of the
    last event, the threshold it was created with, and the number of
    events so far. *)
Lemma stream_loop_exhausted_state (sessionsRepo : option SessionRepository)
    (msgs : list (Z * SDKMessage)) :
  tracks_activity P ->
  forall ps acts ps',
    stream_loop P sessionsRepo sessionId ps msgs = (acts, ps', Exhausted) ->
    getState P ps'
    = mkView (last_time (lastActivityTime (getState P ps)) msgs)
        (idleTimeoutMs (getState P ps))
        (messageCount (getState P ps) + Z.of_nat (length msgs)).
Proof.
  intros HP. induction msgs as [|[now msg] msgs IH]; intros ps acts ps'.
  - cbn. intros H. inversion H; subst. rewrite Z.add_0_r.
    destruct (getState P ps'); reflexivity.
  - cbn [stream_loop].
    destruct (hasTimedOut P ps now); [discriminate|].
    destruct (process P ps now msg) as [ps1 [t|events]] eqn:Hproc; [discriminate|].
    destruct (handle_events sessionsRepo sessionId events) as [a1 [t|]];
      [discriminate|].
    destruct (existsb is_end events); [discriminate|].
    destruct (stream_loop P sessionsRepo sessionId ps1 msgs)
      as [[acts' ps''] exit] eqn:Hrest.
    intros H. inversion H; subst.
    rewrite (IH _ _ _ Hrest).
    rewrite (processed_spec P HP _ _ _ _ _ Hproc). cbn [lastActivityTime idleTimeoutMs messageCount].
    unfold last_time. cbn [map fst length].
    f_equal; [|lia]. symmetry. apply last_cons_default.
Qed.

Lemma stream_loop_app (sessionsRepo : option SessionRepository)
    (pre rest : list (Z * SDKMessage)) :
  forall ps acts ps',
    stream_loop P sessionsRepo sessionId ps pre = (acts, ps', Exhausted) ->
    stream_loop P sessionsRepo sessionId ps (pre ++ rest)
    = let '(acts2, ps2, exit) := stream_loop P sessionsRepo sessionId ps' rest in
      (acts ++ acts2, ps2, exit).
Proof.
  induction pre as [|[now msg] pre IH]; intros ps acts ps'.
  - cbn. intros H. inversion H; subst.
    destruct (stream_loop P sessionsRepo sessionId ps' rest) as [[a p] e].
    reflexivity.
  - cbn [stream_loop app].
    destruct (hasTimedOut P ps now); [discriminate|].
    destruct (process P ps now msg) as [ps1 [t|events]]; [discriminate|].
    destruct (handle_events sessionsRepo sessionId events) as [a1 [t|]];
      [discriminate|].
    destruct (existsb is_end events); [discriminate|].
    destruct (stream_loop P sessionsRepo sessionId ps1 pre)
      as [[acts' ps''] exit] eqn:Hrest.
    intros H. inversion H; subst.
    rewrite (IH _ _ _ Hrest).
    destruct (stream_loop P sessionsRepo sessionId ps' rest) as [[a p] e].
    rewrite app_assoc. reflexivity.
Qed.

Lemma stream_loop_timely (sessionsRepo : option SessionRepository)
    (msgs : list (Z * SDKMessage)) :
  tracks_activity P ->
  forall ps,
    timely (idleTimeoutMs (getState P ps)) (lastActivityTime (getState P ps)) msgs
    = true ->
    stream_loop P sessionsRepo sessionId ps msgs
    = stream_loop (without_idle_check P) sessionsRepo sessionId ps msgs.
Proof.
  intros HP. induction msgs as [|[now msg] msgs IH]; intros ps Ht; [reflexivity|].
  cbn [timely] in Ht. apply andb_true_iff in Ht. destruct Ht as [Hnow Hrest].
  cbn [stream_loop]. rewrite (timed_out_spec P HP).
  replace (idleTimeoutMs (getState P ps) <? now - lastActivityTime (getState P ps))
    with false by (symmetry; apply Z.ltb_ge, Z.leb_le, Hnow).
  cbn [without_idle_check hasTimedOut process].
  destruct (process P ps now msg) as [ps1 [t|events]] eqn:Hproc; [reflexivity|].
  destruct (handle_events sessionsRepo sessionId events) as [a1 [t|]];
    [reflexivity|].
  destruct (existsb is_end events); [reflexivity|].
  rewrite IH; [reflexivity|].
  rewrite (processed_spec P HP _ _ _ _ _ Hproc). exact Hrest.
Qed.

End Loop.

(** *** The non-streaming loop *)

Lemma collect_events_messages (events : list ProcessedEvent) :
  forall acc,
    (collect_events events acc).1
    = acc.1 ++ flat_map entry_of (before_end events).
Proof.
  induction events as [|e events IH]; intros acc;
    [cbn; rewrite app_nil_r; reflexivity|].
  destruct e; cbn [collect_events is_end before_end flat_map entry_of];
    try (rewrite IH; reflexivity);
    try (cbn; rewrite app_nil_r; reflexivity).
  - destruct (String.eqb role ASSISTANT); rewrite IH; cbn [fst app];
      [rewrite <- app_assoc|]; reflexivity.
  - destruct raw_sdk_message_usage; rewrite IH; reflexivity.
Qed.

Lemma entries_of_completes (events : list ProcessedEvent) :
  flat_map entry_of events = flat_map entry_of (List.filter is_complete events).
Proof.
  induction events as [|e events IH]; [reflexivity|].
  destruct e; cbn [List.filter is_complete flat_map entry_of app];
    rewrite <- ?IH; reflexivity.
Qed.

Lemma prompt_loop_messages (P : SDKMessageProcessor)
    (toolUsesOf : SDKMessage -> option (list ToolUse))
    (msgs : list (Z * SDKMessage)) :
  one_complete_per_assistant P toolUsesOf ->
  forall ps acc, exists acc',
    prompt_loop P ps msgs acc = (acc', None) /\
    acc'.1
    = acc.1 ++ map (fun m => mkAssistantMessage (msg_content m) (toolUsesOf m))
                 (List.filter is_assistant (map snd msgs)).
Proof.
  intros HP. induction msgs as [|[now msg] msgs IH]; intros ps acc.
  - exists acc. split; [reflexivity|]. cbn. rewrite app_nil_r. reflexivity.
  - cbn [prompt_loop map snd List.filter].
    destruct (HP ps now msg) as (ps1 & events & Hproc & Hcomplete).
    rewrite Hproc.
    destruct (IH ps1 (collect_events events acc)) as (acc' & Hloop & Hacc).
    exists acc'. split; [exact Hloop|]. rewrite Hacc.
    rewrite collect_events_messages, entries_of_completes, Hcomplete.
    unfold is_assistant at 2.
    destruct (String.eqb (msg_type msg) "assistant").
    + cbn [flat_map entry_of map app]. rewrite String.eqb_refl.
      rewrite <- app_assoc. reflexivity.
    + cbn [flat_map]. rewrite app_nil_r. reflexivity.
Qed.

(** *** The processor after the specification *)

Lemma SpecProcessor_tracks_activity : tracks_activity SpecProcessor.
Proof.
  split.
  - intros ps now. reflexivity.
  - intros opts t0. reflexivity.
  - intros ps now msg ps1 events H. cbn in H. unfold spec_process in H.
    inversion H; subst. reflexivity.
Qed.

Lemma SpecProcessor_one_complete :
  one_complete_per_assistant SpecProcessor (fun m => tool_uses_of (msg_content m)).
Proof.
  intros ps now msg. eexists _, _. split; [reflexivity|].
  destruct (s_captured ps), (msg_session_id msg);
    destruct (String.eqb (msg_type msg) "assistant"); try reflexivity;
    destruct (String.eqb (msg_type msg) "stream_event");
    try (destruct (msg_text msg); destruct (s_streaming ps); reflexivity);
    destruct (String.eqb (msg_type msg) "result"); reflexivity.
Qed.

(** *** Cancellation, idle time, separate messages, session id *)

(** C3. When the loop has taken every raw event and the stream then ends
    in an abort error (by name, or by a message that mentions it), the
    generator yields [stopped] once, after everything else, and returns: it
    raises nothing. If the processor handed over no [stopped] of its own,
    that is the only one. The non-streaming version returns what it has
    collected. *)
Theorem abort_becomes_one_stopped_event :
  forall (P : SDKMessageProcessor) (sessionsRepo : option SessionRepository)
         (sessionId : string) (existing : option string) (stderr : string)
         (t0 : Z) (msgs : list (Z * SDKMessage)) (t : Thrown)
         (acts : list Action) (ps : PState P),
    isAbortError t = true ->
    stream_loop P sessionsRepo sessionId
      (create P (streaming_options sessionId existing) t0) msgs
    = (acts, ps, Exhausted) ->
    List.filter is_stopped (yielded acts) = [] ->
    promptSessionStreaming P sessionsRepo sessionId existing stderr t0
      (mkStream msgs (Throws t))
    = (acts ++ [Yield stopped], Returned) /\
    List.filter is_stopped (yielded (acts ++ [Yield stopped])) = [stopped] /\
    (forall acc,
       prompt_loop P (create P (mkOptions sessionId existing false IDLE_TIMEOUT_MS) t0)
         msgs ([], None) = (acc, None) ->
       promptSession P sessionId existing t0 (mkStream msgs (Throws t))
       = inr (prompt_result acc)).
Proof.
  intros P sessionsRepo sessionId existing stderr t0 msgs t acts ps
         Habort Hloop Hnone.
  split; [|split].
  - unfold promptSessionStreaming. cbn [items ending].
    unfold streaming_options in Hloop. rewrite Hloop.
    cbn [caught]. rewrite Habort. reflexivity.
  - rewrite yielded_app, List.filter_app, Hnone. reflexivity.
  - intros acc Hacc. unfold promptSession. cbn [items ending].
    rewrite Hacc, Habort. reflexivity.
Qed.

Lemma abort_becomes_one_stopped_event_witness :
  promptSessionStreaming SpecProcessor (Some always_ok) "session-1" None "" 0
    (mkStream cancelled_turn (Throws AbortError))
  = ([DbUpdate "session-1" "sdk-1";
      Yield (complete ASSISTANT [tool_block "t1" "Read"]
               (Some [mkToolUse "t1" "Read"]));
      Yield stopped],
     Returned).
Proof.
  apply (abort_becomes_one_stopped_event SpecProcessor (Some always_ok)
           "session-1" None "" 0 cancelled_turn AbortError
           [DbUpdate "session-1" "sdk-1";
            Yield (complete ASSISTANT [tool_block "t1" "Read"]
                     (Some [mkToolUse "t1" "Read"]))]
           (mkSpecState 20 IDLE_TIMEOUT_MS 2 (Some "sdk-1") true));
    reflexivity.
Defined.

(** Once an [end] event has made the loop leave, the rest of the stream
    is not read: an abort that comes after the result of the turn is never
    seen, and the call returns without a [stopped]. *)
Example abort_after_end_is_not_seen :
  promptSessionStreaming SpecProcessor (Some always_ok) "session-1" None "" 0
    (mkStream sample_turn (Throws AbortError))
  = promptSessionStreaming SpecProcessor (Some always_ok) "session-1" None "" 0
      (mkStream sample_turn Done).
Proof. reflexivity. Qed.

(** Whatever the streaming call raises is the plain [Error] its [catch]
    block builds around a thrown value that is not an abort. *)
Lemma promptSessionStreaming_raises_plain_errors (P : SDKMessageProcessor)
    (sessionsRepo : option SessionRepository) (sessionId : string)
    (existing : option string) (stderr : string) (t0 : Z) (stream : RawStream)
    (acts : list Action) (t : Thrown) :
  promptSessionStreaming P sessionsRepo sessionId existing stderr t0 stream
  = (acts, Raised t) ->
  exists n inner,
    t = ThrownError (enhancedError n inner stderr) /\
    isAbortError inner = false /\
    error_name_of t = Some "Error".
Proof.
  unfold promptSessionStreaming.
  destruct (stream_loop P sessionsRepo sessionId _ (items stream))
    as [[acts' ps] exit].
  destruct (caught exit (ending stream)) as [inner|]; [|discriminate].
  destruct (isAbortError inner) eqn:Habort; [discriminate|].
  intros H. inversion H; subst. eauto.
Qed.

(** C6, as the specification states it, fails: when the second event
    of a turn arrives after 399 seconds of silence, the call raises a plain
    [Error] with a text, not an [IdleTimeoutError]. *)
Lemma idle_timeout_raises_plain_error :
  exists acts t,
    promptSessionStreaming SpecProcessor (Some always_ok) "session-1" None "" 0
      (mkStream silent_turn Done)
    = (acts, Raised t) /\
    error_name_of t = Some "Error" /\
    ~ is_IdleTimeoutError t.
Proof.
  eexists _, _. split; [reflexivity|]. split; [reflexivity|].
  intros (e & He & Hname). inversion He; subst. discriminate.
Qed.

(** C6, amended. For a processor that keeps the idle clock as specified:
    when the loop has taken the events [pre] and the next event arrives
    more than the threshold (300000 ms) after the last activity, the call
    raises a plain [Error] whose text carries the idle seconds, the
    threshold in seconds and the number of events processed so far; and
    when every event arrives within the threshold of the one before, the
    idle check changes nothing: the call runs as it would without the
    check. *)
Theorem idle_timeout_detection :
  forall (P : SDKMessageProcessor) (sessionsRepo : option SessionRepository)
         (sessionId : string) (existing : option string) (stderr : string)
         (t0 : Z) (stream : RawStream),
    tracks_activity P ->
    (forall pre now msg post acts ps,
       items stream = pre ++ (now, msg) :: post ->
       stream_loop P sessionsRepo sessionId
         (create P (streaming_options sessionId existing) t0) pre
       = (acts, ps, Exhausted) ->
       IDLE_TIMEOUT_MS < now - last_time t0 pre ->
       promptSessionStreaming P sessionsRepo sessionId existing stderr t0 stream
       = (acts,
          Raised (ThrownError
            (enhancedError (Z.of_nat (length pre))
               (ThrownError (new_Error
                  (idle_timeout_message (now - last_time t0 pre)
                     IDLE_TIMEOUT_MS (Z.of_nat (length pre)))))
               stderr)))) /\
    (timely IDLE_TIMEOUT_MS t0 (items stream) = true ->
     promptSessionStreaming P sessionsRepo sessionId existing stderr t0 stream
     = promptSessionStreaming (without_idle_check P) sessionsRepo sessionId
         existing stderr t0 stream).
Proof.
  intros P sessionsRepo sessionId existing stderr t0 stream HP. split.
  - intros pre now msg post acts ps Hitems Hpre Hgap.
    pose proof (stream_loop_exhausted_state P sessionId sessionsRepo pre HP
                  _ _ _ Hpre) as Hstate.
    unfold streaming_options in *.
    rewrite (created_spec P HP) in Hstate.
    cbn [lastActivityTime idleTimeoutMs messageCount opt_idleTimeoutMs] in Hstate.
    unfold promptSessionStreaming. rewrite Hitems.
    rewrite (stream_loop_app P sessionId sessionsRepo pre _ _ _ _ Hpre).
    cbn [stream_loop]. rewrite (timed_out_spec P HP), Hstate.
    cbn [lastActivityTime idleTimeoutMs messageCount].
    replace (IDLE_TIMEOUT_MS <? now - last_time t0 pre) with true
      by (symmetry; apply Z.ltb_lt, Hgap).
    cbn [caught]. rewrite idle_timeout_is_not_abort, app_nil_r.
    rewrite Hstate. cbn [messageCount]. reflexivity.
  - intros Ht. unfold promptSessionStreaming.
    rewrite (stream_loop_timely P sessionId sessionsRepo _ HP).
    + reflexivity.
    + rewrite (created_spec P HP). exact Ht.
Qed.

Lemma idle_timeout_detection_witness :
  promptSessionStreaming SpecProcessor (Some always_ok) "session-1" None "" 0
    (mkStream silent_turn Done)
  = ([DbUpdate "session-1" "sdk-1"],
     Raised (ThrownError (new_Error
       ("Claude SDK error after 1 messages: Claude SDK idle timeout: "
        +:+ "No activity for 399s (timeout: 300s). "
        +:+ "SDK may have hung or crashed. Last message type was #1.")))) /\
  promptSessionStreaming SpecProcessor (Some always_ok) "session-1" None "" 0
    (mkStream sample_turn Done)
  = promptSessionStreaming (without_idle_check SpecProcessor) (Some always_ok)
      "session-1" None "" 0 (mkStream sample_turn Done).
Proof.
  destruct (idle_timeout_detection SpecProcessor (Some always_ok) "session-1"
              None "" 0 (mkStream silent_turn Done)
              SpecProcessor_tracks_activity) as [Hraise _].
  destruct (idle_timeout_detection SpecProcessor (Some always_ok) "session-1"
              None "" 0 (mkStream sample_turn Done)
              SpecProcessor_tracks_activity) as [_ Hquiet].
  split.
  - apply (Hraise [(1000, system_init "sdk-1")] 400000
             (assistant_message [text_block "late"]) []
             [DbUpdate "session-1" "sdk-1"]
             (mkSpecState 1000 IDLE_TIMEOUT_MS 1 (Some "sdk-1") true));
      [reflexivity|reflexivity|reflexivity].
  - apply Hquiet. reflexivity.
Defined.

(** C7. For a processor that turns every assistant message into one
    [complete] event of its own, [promptSession] on a stream that ends
    normally returns one entry of [messages] per assistant message of the
    stream, in the order of the stream, each with the content of its
    message: nothing is merged. *)
Theorem promptSession_keeps_messages_separate :
  forall (P : SDKMessageProcessor)
         (toolUsesOf : SDKMessage -> option (list ToolUse))
         (sessionId : string) (existing : option string) (t0 : Z)
         (stream : RawStream),
    one_complete_per_assistant P toolUsesOf ->
    ending stream = Done ->
    exists r,
      promptSession P sessionId existing t0 stream = inr r /\
      messages r
      = map (fun m => mkAssistantMessage (msg_content m) (toolUsesOf m))
          (List.filter is_assistant (map snd (items stream))) /\
      length (messages r)
      = length (List.filter is_assistant (map snd (items stream))).
Proof.
  intros P toolUsesOf sessionId existing t0 stream HP Hdone.
  unfold promptSession.
  destruct (prompt_loop_messages P toolUsesOf (items stream) HP
              (create P (mkOptions sessionId existing false IDLE_TIMEOUT_MS) t0)
              ([], None)) as (acc & Hloop & Hacc).
  rewrite Hloop, Hdone. eexists. split; [reflexivity|].
  cbn [prompt_result messages]. rewrite Hacc. cbn [fst app].
  split; [reflexivity|]. apply length_map.
Qed.

Lemma promptSession_keeps_messages_separate_witness :
  exists r,
    promptSession SpecProcessor "session-1" None 0 (mkStream sample_turn Done)
    = inr r /\
    messages r
    = [mkAssistantMessage [tool_block "t1" "Read"] (Some [mkToolUse "t1" "Read"]);
       mkAssistantMessage [text_block "done"] None].
Proof.
  destruct (promptSession_keeps_messages_separate SpecProcessor
              (fun m => tool_uses_of (msg_content m)) "session-1" None 0
              (mkStream sample_turn Done) SpecProcessor_one_complete eq_refl)
    as (r & Hr & Hmessages & _).
  exists r. split; [exact Hr|]. rewrite Hmessages. reflexivity.
Defined.

Lemma apply_actions_app (a b : list Action) (store : gmap string string) :
  apply_actions (a ++ b) store = apply_actions b (apply_actions a store).
Proof. unfold apply_actions. apply fold_left_app. Qed.

Lemma promptSessionStreaming_actions (P : SDKMessageProcessor)
    (sessionsRepo : option SessionRepository) (sessionId : string)
    (existing : option string) (stderr : string) (t0 : Z) (stream : RawStream) :
  exists tail,
    (promptSessionStreaming P sessionsRepo sessionId existing stderr t0 stream).1
    = (stream_loop P sessionsRepo sessionId
         (create P (streaming_options sessionId existing) t0) (items stream)).1.1
      ++ tail /\
    (tail = [] \/ tail = [Yield stopped]).
Proof.
  unfold promptSessionStreaming, streaming_options.
  destruct (stream_loop P sessionsRepo sessionId _ (items stream))
    as [[acts ps] exit].
  destruct (caught exit (ending stream)) as [t|].
  - destruct (isAbortError t).
    + exists [Yield stopped]. split; [reflexivity|right; reflexivity].
    + exists []. split; [cbn; rewrite app_nil_r; reflexivity|left; reflexivity].
  - exists []. split; [cbn; rewrite app_nil_r; reflexivity|left; reflexivity].
Qed.

(** C8. No [session_id_captured] event is ever yielded, whatever the
    processor and the repository. With a repository whose update resolves,
    the actions of the call are the processor's events in the order it
    emitted them, each [session_id_captured] replaced by the update of the
    session's [sdk_session_id], followed by at most a [stopped]: so the
    update is done, and the store holds the captured id, before any event
    the processor emitted after it is yielded. *)
Theorem session_id_capture_is_persisted_not_yielded :
  forall (P : SDKMessageProcessor) (sessionId : string)
         (existing : option string) (stderr : string) (t0 : Z)
         (stream : RawStream),
    (forall sessionsRepo sid,
       ~ In (session_id_captured sid)
            (yielded (promptSessionStreaming P sessionsRepo sessionId existing
                        stderr t0 stream).1)) /\
    (forall repo,
       (forall sid, update repo sessionId sid = None) ->
       forall pre sid post,
         emitted P (create P (streaming_options sessionId existing) t0)
           (items stream)
         = pre ++ session_id_captured sid :: post ->
         exists tail,
           (promptSessionStreaming P (Some repo) sessionId existing stderr t0
              stream).1
           = map (action_of sessionId) pre
             ++ DbUpdate sessionId sid :: map (action_of sessionId) post ++ tail /\
           (tail = [] \/ tail = [Yield stopped]) /\
           forall store,
             apply_actions
               (map (action_of sessionId) pre ++ [DbUpdate sessionId sid]) store
             !! sessionId = Some sid).
Proof.
  intros P sessionId existing stderr t0 stream. split.
  - intros sessionsRepo sid.
    destruct (promptSessionStreaming_actions P sessionsRepo sessionId existing
                stderr t0 stream) as (tail & -> & Htail).
    rewrite yielded_app. intros Hin. apply in_app_iff in Hin.
    destruct Hin as [Hin|Hin].
    + exact (stream_loop_never_yields_capture P sessionId sessionsRepo _ sid _ Hin).
    + destruct Htail as [->| ->]; cbn in Hin; [exact Hin|].
      destruct Hin as [Heq|[]]. discriminate.
  - intros repo Hok pre sid post Hemitted.
    destruct (promptSessionStreaming_actions P (Some repo) sessionId existing
                stderr t0 stream) as (tail & -> & Htail).
    exists tail. rewrite (stream_loop_emitted P sessionId repo _ Hok), Hemitted.
    split; [|split; [exact Htail|]].
    + rewrite map_app. cbn [map action_of]. rewrite <- !app_assoc. reflexivity.
    + intros store. rewrite apply_actions_app. cbn.
      apply lookup_insert_eq.
Qed.

Lemma session_id_capture_witness :
  exists tail,
    (promptSessionStreaming SpecProcessor (Some always_ok) "session-1" None "" 0
       (mkStream sample_turn Done)).1
    = [DbUpdate "session-1" "sdk-1";
       Yield (complete ASSISTANT [tool_block "t1" "Read"]
                (Some [mkToolUse "t1" "Read"]));
       Yield (complete ASSISTANT [text_block "done"] None);
       Yield (result (Some (mkUsage (Some 5) (Some 7) None None)))] ++ tail /\
    (tail = [] \/ tail = [Yield stopped]) /\
    apply_actions [DbUpdate "session-1" "sdk-1"] ∅ !! "session-1" = Some "sdk-1".
Proof.
  destruct (session_id_capture_is_persisted_not_yielded SpecProcessor
              "session-1" None "" 0 (mkStream sample_turn Done)) as [_ Hpersist].
  destruct (Hpersist always_ok (fun _ => eq_refl) [] "sdk-1"
              [complete ASSISTANT [tool_block "t1" "Read"]
                 (Some [mkToolUse "t1" "Read"]);
               complete ASSISTANT [text_block "done"] None;
               result (Some (mkUsage (Some 5) (Some 7) None None))]
              eq_refl) as (tail & Hacts & Htail & Hstore).
  exists tail. split; [exact Hacts|]. split; [exact Htail|]. exact (Hstore ∅).
Defined.

End StreamingProps.

(** ** Agent adapters: the remaining operations *)

Module AdapterOpsProps.
Import Js Adapter AdapterOps AdapterProps.

Lemma initialize_sessions (k : AgentKind) (auth : IAuthProvider)
    (a : AdapterState) :
  sessions (initialize k auth a).1 = sessions a.
Proof.
  unfold initialize. destruct (isInitialized a); [reflexivity|].
  destruct (getCredentials auth) as [t|credentials]; [reflexivity|].
  destruct (validateCredentials auth credentials) as [t|[]]; reflexivity.
Qed.

(** What [execute] does to the session map: nothing, or one [set] on its
    own session. *)
Lemma execute_sessions (k : AgentKind)
    (executePrompt : SessionState -> string -> AuthCredentials ->
                     Result AgentResponse)
    (auth : IAuthProvider) (now : Z) (a : AdapterState)
    (sessionId prompt : string) :
  sessions (execute k executePrompt auth now a sessionId prompt).1 = sessions a \/
  exists session st,
    sessions a !! sessionId = Some session /\
    sessions (execute k executePrompt auth now a sessionId prompt).1
    = <[sessionId := mkSessionState (config session) st (createdAt session) now
                       (taskIds session)]> (sessions a).
Proof.
  rewrite execute_unfold.
  pose proof (initialize_sessions k auth a) as Hs.
  destruct (initialize k auth a) as [a1 [t|[]]]; cbn [fst snd] in *;
    [left; exact Hs|].
  destruct (sessions a1 !! sessionId) as [session|] eqn:Hl;
    [|left; exact Hs].
  destruct (run_prompt executePrompt auth session prompt); cbn [fst];
    right; eexists session, _; (split; [rewrite <- Hs; exact Hl|]);
    unfold touch_session; cbn [sessions]; rewrite Hs; reflexivity.
Qed.

(** X1. [initialize] either succeeds, after which the adapter is
    initialised and any later [initialize] returns at once without asking
    the auth provider, or fails and leaves the adapter as it was. It never
    touches the sessions. *)
Theorem initialize_once :
  forall (k : AgentKind) (auth : IAuthProvider) (a : AdapterState),
    sessions (initialize k auth a).1 = sessions a /\
    match (initialize k auth a).2 with
    | inr _ =>
        isInitialized (initialize k auth a).1 = true /\
        forall k' auth',
          initialize k' auth' (initialize k auth a).1
          = ((initialize k auth a).1, inr tt)
    | inl _ => (initialize k auth a).1 = a
    end.
Proof.
  intros k auth a. unfold initialize.
  destruct (isInitialized a) eqn:Hi.
  - cbn. split; [reflexivity|]. split; [exact Hi|].
    intros k' auth'. unfold initialize. rewrite Hi. reflexivity.
  - destruct (getCredentials auth) as [t|credentials]; cbn; [auto|].
    destruct (validateCredentials auth credentials) as [t|[]]; cbn; auto.
Qed.


(** X3. [terminateSession] works from any status and may be repeated: the
    second call succeeds too and the session stays [completed]. *)
Theorem terminateSession_idempotent :
  forall (now now' : Z) (a a1 : AdapterState) (sessionId : string),
    terminateSession now a sessionId = (a1, inr tt) ->
    exists a2 st,
      terminateSession now' a1 sessionId = (a2, inr tt) /\
      sessions a2 !! sessionId = Some st /\ status st = completed /\
      forall other, other <> sessionId ->
        sessions a2 !! other = sessions a !! other.
Proof.
  intros now now' a a1 sessionId. unfold terminateSession.
  destruct (sessions a !! sessionId) as [session|]; [|discriminate].
  intros H. inversion H; subst. rewrite touch_session_lookup.
  eexists _, _. split; [reflexivity|]. split; [apply touch_session_lookup|].
  split; [reflexivity|].
  intros other Hne. rewrite !touch_session_other by exact Hne. reflexivity.
Qed.

Lemma terminateSession_idempotent_witness :
  exists a2 st,
    terminateSession 3000
      (terminateSession 2000 sample_adapter "s1").1 "s1" = (a2, inr tt) /\
    sessions a2 !! "s1" = Some st /\ status st = completed.
Proof.
  destruct (terminateSession_idempotent 2000 3000 sample_adapter
              (touch_session sample_adapter "s1" sample_session completed 2000)
              "s1") as (a2 & st & H2 & Hst & Hc & _).
  - unfold terminateSession. rewrite sample_lookup. reflexivity.
  - exists a2, st. unfold terminateSession at 2. rewrite sample_lookup.
    cbn [fst]. auto.
Defined.

(** The loop of [cleanup] keeps the set of session ids, so the lookup of
    [terminateSession] never misses. *)
Lemma cleanup_loop_ok (now : Z) (ids : list string) :
  forall a, exists a1,
    cleanup_loop now a ids = (a1, inr tt) /\
    (forall key, is_Some (sessions a1 !! key) <-> is_Some (sessions a !! key)).
Proof.
  induction ids as [|sessionId ids IH]; intros a.
  - exists a. split; [reflexivity|]. reflexivity.
  - cbn [cleanup_loop].
    destruct (sessions a !! sessionId) as [session|] eqn:Hl; [|apply IH].
    destruct (status session); try apply IH.
    unfold terminateSession. rewrite Hl.
    destruct (IH (touch_session a sessionId session completed now))
      as (a1 & Hloop & Hdom).
    exists a1. split; [exact Hloop|].
    intros key. rewrite Hdom.
    destruct (decide (key = sessionId)) as [->|Hne].
    + rewrite touch_session_lookup, Hl. split; eauto.
    + rewrite touch_session_other by exact Hne. reflexivity.
Qed.

(** X4. [cleanup] never rejects: whatever the sessions and their
    statuses, it ends with an empty session map and an adapter that is no
    longer initialised. *)
Theorem cleanup_clears :
  forall (now : Z) (a : AdapterState),
    cleanup now a = (mkAdapter ∅ false, inr tt).
Proof.
  intros now a. unfold cleanup.
  destruct (cleanup_loop_ok now (map fst (map_to_list (sessions a))) a)
    as (a1 & -> & _).
  reflexivity.
Qed.

(** X5. Every session stays stored under its own id through
    [createSession], [execute], [terminateSession] and an [updateSession]
    that leaves the id alone. An [updateSession] that sets another id breaks
    this: the session stays under its old key with the new id inside. *)
Theorem keys_match_preserved :
  forall (k : AgentKind)
         (executePrompt : SessionState -> string -> AuthCredentials ->
                          Result AgentResponse)
         (auth : IAuthProvider) (now : Z) (a : AdapterState),
    keys_match a ->
    (forall cfg, keys_match (createSession now a cfg).1) /\
    (forall sessionId prompt,
       keys_match (execute k executePrompt auth now a sessionId prompt).1) /\
    (forall sessionId, keys_match (terminateSession now a sessionId).1) /\
    (forall sessionId updates,
       u_id updates = None ->
       keys_match (updateSession now a sessionId updates).1) /\
    (forall sessionId session newId,
       sessions a !! sessionId = Some session -> newId <> sessionId ->
       exists session',
         getSessionState
           (updateSession now a sessionId
              (mkUpdates (Some newId) None None None None)).1 sessionId
         = inr session' /\
         id (config session') = newId).
Proof.
  intros k executePrompt auth now a Hk.
  split; [|split; [|split; [|split]]].
  - intros cfg key session. cbn.
    destruct (decide (key = id cfg)) as [->|Hne].
    + rewrite lookup_insert_eq. intros H. inversion H; subst. reflexivity.
    + rewrite lookup_insert_ne by congruence. apply Hk.
  - intros sessionId prompt key session' Hl.
    destruct (execute_sessions k executePrompt auth now a sessionId prompt)
      as [Hsame|(session & st & Hs & Hset)].
    + rewrite Hsame in Hl. eapply Hk, Hl.
    + rewrite Hset in Hl. destruct (decide (key = sessionId)) as [->|Hne].
      * rewrite lookup_insert_eq in Hl. injection Hl as <-. cbn [config].
        eapply Hk, Hs.
      * rewrite lookup_insert_ne in Hl by congruence. eapply Hk, Hl.
  - intros sessionId key session'. unfold terminateSession.
    destruct (sessions a !! sessionId) as [session|] eqn:Hl; [|apply Hk].
    cbn [fst]. destruct (decide (key = sessionId)) as [->|Hne].
    + rewrite touch_session_lookup. intros H. inversion H; subst. cbn.
      eapply Hk, Hl.
    + rewrite touch_session_other by exact Hne. apply Hk.
  - intros sessionId updates Hid key session'. unfold updateSession.
    destruct (sessions a !! sessionId) as [session|] eqn:Hl; [|apply Hk].
    cbn [fst sessions]. destruct (decide (key = sessionId)) as [->|Hne].
    + rewrite lookup_insert_eq. intros H. inversion H; subst.
      cbn. rewrite Hid. cbn. eapply Hk, Hl.
    + rewrite lookup_insert_ne by congruence. apply Hk.
  - intros sessionId session newId Hl Hne. unfold updateSession, getSessionState.
    rewrite Hl. cbn [fst sessions]. rewrite lookup_insert_eq.
    eexists. split; reflexivity.
Qed.

Lemma keys_match_sample : keys_match sample_adapter.
Proof.
  intros key session. unfold sample_adapter. cbn [sessions].
  destruct (decide (key = "s1")) as [->|Hne].
  - rewrite lookup_singleton_eq. intros H. inversion H. reflexivity.
  - rewrite lookup_singleton_ne by congruence. discriminate.
Qed.

Lemma keys_match_preserved_witness :
  keys_match (ClaudeCodeAdapter_execute None auth_ok 2000 sample_adapter
                "s1" "hello").1 /\
  exists session',
    getSessionState
      (updateSession 2000 sample_adapter "s1"
         (mkUpdates (Some "s2") None None None None)).1 "s1"
    = inr session' /\
    id (config session') = "s2".
Proof.
  destruct (keys_match_preserved ClaudeCode (executeClaudeCodePrompt None)
              auth_ok 2000 sample_adapter keys_match_sample)
    as (_ & Hexec & _ & _ & Hbreak).
  split; [apply Hexec|].
  apply (Hbreak "s1" sample_session "s2" sample_lookup). discriminate.
Defined.

(** X6. [createSession] followed by [getSessionState] gives the new
    session back: it is [idle] with no tasks, whatever was stored under that
    id before, and the other sessions are untouched. *)
Theorem createSession_getSessionState :
  forall (now : Z) (a : AdapterState) (cfg : SessionConfig),
    getSessionState (createSession now a cfg).1 (id cfg)
    = inr (mkSessionState cfg idle now now []) /\
    forall other, other <> id cfg ->
      getSessionState (createSession now a cfg).1 other
      = getSessionState a other.
Proof.
  intros now a cfg. unfold getSessionState, createSession. cbn [fst sessions].
  split.
  - rewrite lookup_insert_eq. reflexivity.
  - intros other Hne. rewrite lookup_insert_ne by congruence. reflexivity.
Qed.

(** X28. [healthCheck] answers [true] exactly when [initialize] on an
    adapter that is not yet initialised would succeed: the credentials can
    be fetched and are found valid. Where [initialize] rejects,
    [healthCheck] answers [false] and raises nothing. *)
Theorem healthCheck_agrees_with_initialize :
  forall (k : AgentKind) (auth : IAuthProvider) (a : AdapterState),
    isInitialized a = false ->
    (healthCheck auth = true <-> (initialize k auth a).2 = inr tt).
Proof.
  intros k auth a Hi. unfold healthCheck, initialize. rewrite Hi.
  destruct (getCredentials auth) as [t|credentials]; cbn [snd];
    [split; discriminate|].
  destruct (validateCredentials auth credentials) as [t|[]]; cbn [snd];
    split; intros H; try reflexivity; discriminate.
Qed.

Lemma healthCheck_agrees_with_initialize_witness :
  healthCheck auth_ok = true /\ healthCheck auth_failing = false.
Proof.
  split.
  - apply (healthCheck_agrees_with_initialize ClaudeCode auth_ok
             (mkAdapter ∅ false) eq_refl).
    reflexivity.
  - destruct (healthCheck auth_failing) eqn:Hh; [|reflexivity].
    apply (healthCheck_agrees_with_initialize ClaudeCode auth_failing
             (mkAdapter ∅ false) eq_refl) in Hh.
    discriminate.
Defined.

End AdapterOpsProps.

(** ** Permission-mode translation: which inputs reach which mode *)

Module PermissionMoreProps.
Import Permission PermissionProps.

(** X7. The Gemini mapper returns the mode that approves everything for
    exactly two inputs, ['yolo'] and ['allow-all'], and the prompting mode
    for exactly ['default'] and ['ask']; every other input, the absent one
    included, gets [AUTO_EDIT]. *)
Theorem gemini_modes_by_input :
  forall pm : option string,
    (mapPermissionMode pm = Some YOLO <->
     pm = Some "yolo" \/ pm = Some "allow-all") /\
    (mapPermissionMode pm = Some DEFAULT <->
     pm = Some "default" \/ pm = Some "ask") /\
    (mapPermissionMode pm = Some AUTO_EDIT <->
     pm <> Some "yolo" /\ pm <> Some "allow-all" /\
     pm <> Some "default" /\ pm <> Some "ask").
Proof.
  intros pm. unfold mapPermissionMode. rewrite mapPermissionMode_fuel_succ.
  destruct pm as [s|]; cbn [mapPermissionMode_case].
  - string_cases; intuition (try congruence; try discriminate).
  - intuition (try congruence; try discriminate).
Qed.

(** X8. The Claude translator sets [autoApprove] for exactly ['auto'],
    ['allow-all'] and ['bypassPermissions'], asks for a plan for exactly
    ['plan'], and asks for confirmation for exactly ['ask'] and
    ['acceptEdits']. *)
Theorem claude_flags_by_input :
  forall mode : string,
    (autoApprove (translatePermissionMode mode) = Some true <->
     In mode ["auto"; "allow-all"; "bypassPermissions"]) /\
    (requirePlan (translatePermissionMode mode) = Some true <-> mode = "plan") /\
    (askForConfirmation (translatePermissionMode mode) = Some true <->
     In mode ["ask"; "acceptEdits"]).
Proof.
  intros mode. unfold translatePermissionMode.
  string_cases; cbn [In]; intuition (try congruence; try discriminate).
Qed.

(** X9. Whatever default the mapper is configured with, an unmapped input
    gets an answer if and only if that default is itself one of the mapped
    labels; with any other default the [default:] branch would call itself
    without end. *)
Theorem mapPermissionMode_returns_iff_default_mapped :
  forall (dflt : string) (pm : option string),
    mapPermissionMode_case pm = None ->
    ((exists fuel m, mapPermissionMode_fuel dflt fuel pm = Some m) <->
     mapPermissionMode_case (Some dflt) <> None).
Proof.
  intros dflt pm Hpm. split.
  - intros (fuel & m & Hrun) Hd.
    assert (Hnone : forall n q, mapPermissionMode_case q = None ->
                                mapPermissionMode_fuel dflt n q = None).
    { induction n as [|n IH]; intros q Hq; cbn [mapPermissionMode_fuel];
        rewrite Hq; [reflexivity|]. apply IH, Hd. }
    rewrite (Hnone fuel pm Hpm) in Hrun. discriminate.
  - intros Hd. destruct (mapPermissionMode_case (Some dflt)) as [m|] eqn:Hm;
      [|congruence].
    exists 1%nat, m. cbn [mapPermissionMode_fuel]. rewrite Hpm, Hm. reflexivity.
Qed.

Lemma mapPermissionMode_returns_iff_default_mapped_witness :
  exists fuel m,
    mapPermissionMode_fuel GEMINI_DEFAULT_PERMISSION_MODE fuel (Some "sudo")
    = Some m.
Proof.
  apply (mapPermissionMode_returns_iff_default_mapped
           GEMINI_DEFAULT_PERMISSION_MODE (Some "sudo") eq_refl).
  discriminate.
Defined.

End PermissionMoreProps.

(** ** Session context in CLAUDE.md *)

Module SessionContextProps.
Import Js SessionContext.

(** *** Searching in strings *)

Lemma prefix_append (n a b : string) :
  String.prefix n a = true -> String.prefix n (a +:+ b) = true.
Proof.
  revert a. induction n as [|c n IH]; intros a H;
    [destruct (a +:+ b); reflexivity|].
  destruct a as [|d a]; [discriminate|]. simpl in *.
  destruct (ascii_dec c d); [apply IH, H|discriminate].
Qed.


Lemma includes_append_l (n a b : string) :
  includes n a = true -> includes n (a +:+ b) = true.
Proof.
  induction a as [|c a IH]; simpl; intros H.
  - rewrite orb_false_r in H.
    destruct n; [|discriminate]. destruct b; reflexivity.
  - apply orb_true_iff in H. apply orb_true_iff. destruct H as [H|H].
    + left. apply (prefix_append n (String c a) b H).
    + right. apply IH, H.
Qed.

Lemma includes_append_r (n a b : string) :
  includes n b = true -> includes n (a +:+ b) = true.
Proof.
  intros H. induction a as [|c a IH]; [exact H|].
  simpl. rewrite IH. apply orb_true_r.
Qed.


Lemma prefix_substring (k : nat) (h : string) :
  String.prefix (String.substring 0 k h) h = true.
Proof.
  revert k. induction h as [|c h IH]; intros k.
  - destruct k; reflexivity.
  - destruct k; cbn [String.substring String.prefix]; [reflexivity|].
    destruct (ascii_dec c c); [apply IH|congruence].
Qed.

Lemma prefix_trans (a b c : string) :
  String.prefix a b = true -> String.prefix b c = true ->
  String.prefix a c = true.
Proof.
  revert b c. induction a as [|x a IH]; intros b c Hab Hbc;
    [destruct c; reflexivity|].
  destruct b as [|y b]; [discriminate|]. destruct c as [|z c]; [discriminate|].
  cbn [String.prefix] in *.
  destruct (ascii_dec x y) as [->|]; [|discriminate].
  destruct (ascii_dec y z) as [->|]; [|discriminate].
  eapply IH; eassumption.
Qed.

(** The text before the first occurrence holds no occurrence. *)
Lemma indexOf_substring (c : ascii) (n h : string) :
  forall k, indexOf (String c n) h = Some k ->
            indexOf (String c n) (String.substring 0 k h) = None.
Proof.
  induction h as [|d h IH]; intros k.
  - cbn. discriminate.
  - cbn [indexOf].
    destruct (String.prefix (String c n) (String d h)) eqn:Hp.
    + intros H. inversion H; subst. reflexivity.
    + destruct (indexOf (String c n) h) as [k'|] eqn:Hi; [|discriminate].
      cbn. intros H. inversion H; subst.
      cbn [String.substring indexOf].
      destruct (String.prefix (String c n) (String d (String.substring 0 k' h)))
        eqn:Hp'.
      * rewrite (prefix_trans _ _ (String d h) Hp') in Hp; [discriminate|].
        cbn [String.prefix]. destruct (ascii_dec d d); [|congruence].
        apply prefix_substring.
      * rewrite (IH k' eq_refl). reflexivity.
Qed.

Lemma indexOf_includes (n h : string) :
  indexOf n h = None -> includes n h = false.
Proof.
  induction h as [|d h IH]; cbn [indexOf includes].
  - destruct (String.prefix n ""); [discriminate|reflexivity].
  - destruct (String.prefix n (String d h)); [discriminate|].
    destruct (indexOf n h); [discriminate|]. intros _. apply IH. reflexivity.
Qed.









(** *** The two functions *)

Lemma context_has_heading (sessionId : string) (sdkSessionId : option string) :
  includes HEADING (generateSessionContext sessionId sdkSessionId) = true.
Proof. unfold generateSessionContext. apply includes_append_l. reflexivity. Qed.


Section Paths.
Variable path_join : string -> string -> string.

Lemma readFile_readable (fs : Fs) (p : string) :
  p ∉ unreadable fs ->
  match readFile fs p with inr c => c | inl _ => "" end
  = default "" (files fs !! p).
Proof.
  intros Hr. unfold readFile.
  destruct (decide (p ∈ unreadable fs)); [contradiction|].
  destruct (files fs !! p); reflexivity.
Qed.

Lemma append_readable (fs : Fs) (worktreePath sessionId : string)
    (sdkSessionId : option string) :
  claudeMdPath path_join worktreePath ∉ unreadable fs ->
  appendSessionContextToCLAUDEmd path_join fs worktreePath sessionId sdkSessionId
  = let p := claudeMdPath path_join worktreePath in
    let old := default "" (files fs !! p) in
    if includes HEADING old then fs
    else if decide (p ∈ unwritable fs) then fs
    else mkFs (<[p := old +:+ generateSessionContext sessionId sdkSessionId]>
                 (files fs))
           (unreadable fs) (unwritable fs).
Proof.
  intros Hr. unfold appendSessionContextToCLAUDEmd.
  rewrite (readFile_readable fs _ Hr). cbn zeta.
  destruct (includes HEADING _); [reflexivity|].
  unfold writeFile. destruct (decide _); reflexivity.
Qed.


(** X11. When the file exists but cannot be read while it can be written,
    the read error is taken for a missing file: the old content is
    replaced by the generated context alone. *)
Theorem append_replaces_unreadable_file :
  forall (fs : Fs) (worktreePath sessionId : string)
         (sdkSessionId : option string),
    claudeMdPath path_join worktreePath ∈ unreadable fs ->
    claudeMdPath path_join worktreePath ∉ unwritable fs ->
    files (appendSessionContextToCLAUDEmd path_join fs worktreePath sessionId
             sdkSessionId) !! claudeMdPath path_join worktreePath
    = Some (generateSessionContext sessionId sdkSessionId).
Proof.
  intros fs worktreePath sessionId sdkSessionId Hr Hw.
  unfold appendSessionContextToCLAUDEmd, readFile, writeFile.
  destruct (decide (claudeMdPath path_join worktreePath ∈ unreadable fs));
    [|contradiction].
  cbn [includes String.prefix HEADING orb].
  destruct (decide (claudeMdPath path_join worktreePath ∈ unwritable fs));
    [contradiction|].
  cbn [fst files String.append]. apply lookup_insert_eq.
Qed.

(** X12. Appending is idempotent on a readable file: a second call, for
    whatever session, changes nothing. *)
Theorem append_idempotent :
  forall (fs : Fs) (worktreePath sessionId sessionId' : string)
         (sdkSessionId sdkSessionId' : option string),
    claudeMdPath path_join worktreePath ∉ unreadable fs ->
    appendSessionContextToCLAUDEmd path_join
      (appendSessionContextToCLAUDEmd path_join fs worktreePath sessionId
         sdkSessionId)
      worktreePath sessionId' sdkSessionId'
    = appendSessionContextToCLAUDEmd path_join fs worktreePath sessionId
        sdkSessionId.
Proof.
  intros fs worktreePath sessionId sessionId' sdkSessionId sdkSessionId' Hr.
  set (p := claudeMdPath path_join worktreePath) in *.
  rewrite (append_readable fs worktreePath sessionId sdkSessionId Hr).
  cbn zeta. fold p.
  destruct (includes HEADING (default "" (files fs !! p))) eqn:Hh.
  - rewrite (append_readable fs worktreePath sessionId' sdkSessionId' Hr).
    cbn zeta. fold p. rewrite Hh. reflexivity.
  - destruct (decide (p ∈ unwritable fs)) as [Hw|Hw].
    + rewrite (append_readable fs worktreePath sessionId' sdkSessionId' Hr).
      cbn zeta. fold p. rewrite Hh.
      destruct (decide (p ∈ unwritable fs)); [reflexivity|contradiction].
    + rewrite append_readable by exact Hr. cbn zeta. fold p.
      cbn [files]. rewrite lookup_insert_eq. simpl.
      rewrite includes_append_r by apply context_has_heading. reflexivity.
Qed.


(** X14. Removing is idempotent, whatever the file and its permissions:
    what is left after one removal holds no separator any more. *)
Theorem remove_idempotent :
  forall (fs : Fs) (worktreePath : string),
    removeSessionContextFromCLAUDEmd path_join
      (removeSessionContextFromCLAUDEmd path_join fs worktreePath) worktreePath
    = removeSessionContextFromCLAUDEmd path_join fs worktreePath.
Proof.
  intros fs worktreePath.
  set (p := claudeMdPath path_join worktreePath).
  remember (removeSessionContextFromCLAUDEmd path_join fs worktreePath) as r
    eqn:Hr.
  unfold removeSessionContextFromCLAUDEmd in Hr. fold p in Hr.
  assert (Hsame : r = fs ->
                  removeSessionContextFromCLAUDEmd path_join r worktreePath = r).
  { intros ->. unfold removeSessionContextFromCLAUDEmd. fold p. symmetry.
    exact Hr. }
  destruct (readFile fs p) as [t|content] eqn:Hread; [apply Hsame, Hr|].
  destruct (indexOf SEPARATOR content) as [k|] eqn:Hi; [|apply Hsame, Hr].
  unfold writeFile in Hr.
  destruct (decide (p ∈ unwritable fs)) as [Hw|Hw]; [apply Hsame, Hr|].
  cbn [fst] in Hr. clear Hsame. subst r.
  unfold removeSessionContextFromCLAUDEmd. fold p.
  unfold readFile in *. cbn [unreadable files].
  destruct (decide (p ∈ unreadable fs)); [discriminate|].
  rewrite lookup_insert_eq.
  rewrite (indexOf_substring _ _ content k Hi : indexOf SEPARATOR _ = None).
  reflexivity.
Qed.

End Paths.


Lemma append_idempotent_witness :
  appendSessionContextToCLAUDEmd join_slash
    (appendSessionContextToCLAUDEmd join_slash sample_fs "/w" "0123456789" None)
    "/w" "abcdefghij" (Some "sdk-1")
  = appendSessionContextToCLAUDEmd join_slash sample_fs "/w" "0123456789" None.
Proof. apply append_idempotent. set_solver. Defined.


Lemma append_replaces_unreadable_file_witness :
  files (appendSessionContextToCLAUDEmd join_slash locked_fs "/w" "0123456789"
           None) !! "/w/CLAUDE.md"
  = Some (generateSessionContext "0123456789" None).
Proof.
  apply (append_replaces_unreadable_file join_slash locked_fs "/w" "0123456789"
           None); set_solver.
Defined.

End SessionContextProps.

(** ** The prompt service: what the two loops look at *)

Module StreamingTraceProps.
Import Js Streaming StreamingTrace StreamingProps SessionContextProps.

Section Loop.
Variable P : SDKMessageProcessor.
Variable sessionsRepo : option SessionRepository.
Variable sessionId : string.

Lemma stream_loop_left (msgs rest : list (Z * SDKMessage)) :
  forall ps acts ps' exit,
    stream_loop P sessionsRepo sessionId ps msgs = (acts, ps', exit) ->
    exit <> Exhausted ->
    stream_loop P sessionsRepo sessionId ps (msgs ++ rest) = (acts, ps', exit).
Proof.
  induction msgs as [|[now msg] msgs IH]; intros ps acts ps' exit.
  - cbn. intros H Hexit. inversion H; subst. congruence.
  - cbn [stream_loop app].
    destruct (hasTimedOut P ps now); [intros H _; exact H|].
    destruct (process P ps now msg) as [ps1 [t|events]]; [intros H _; exact H|].
    destruct (handle_events sessionsRepo sessionId events) as [a1 [t|]];
      [intros H _; exact H|].
    destruct (existsb is_end events); [intros H _; exact H|].
    destruct (stream_loop P sessionsRepo sessionId ps1 msgs)
      as [[acts' ps''] exit'] eqn:Hrest.
    intros H Hexit. inversion H; subst.
    rewrite (IH _ _ _ _ Hrest Hexit). reflexivity.
Qed.

Lemma handle_events_yields (events : list ProcessedEvent) (e : ProcessedEvent) :
  In e (yielded (handle_events sessionsRepo sessionId events).1) ->
  In e (before_end events) /\ is_end e = false /\ is_session_id_captured e = false.
Proof.
  induction events as [|e0 events IH]; [intros []|].
  destruct e0; cbn [handle_events before_end is_end];
    try (destruct (handle_events sessionsRepo sessionId events) as [acts t];
         cbn [fst yielded flat_map app In] in *;
         intros [<-|Hin];
         [split; [left; reflexivity|split; reflexivity]
         |destruct (IH Hin) as (H1 & H2 & H3);
          split; [right; exact H1|split; assumption]]);
    try (intros []).
  destruct sessionsRepo as [repo|].
  - destruct (update repo sessionId agentSessionId); [intros []|].
    destruct (handle_events (Some repo) sessionId events) as [acts t].
    cbn [fst yielded flat_map app] in *. intros Hin.
    destruct (IH Hin) as (H1 & H2 & H3). split; [right; exact H1|split; assumption].
  - intros Hin. destruct (IH Hin) as (H1 & H2 & H3).
    split; [right; exact H1|split; assumption].
Qed.

Lemma stream_loop_yields (msgs : list (Z * SDKMessage)) (e : ProcessedEvent) :
  forall ps,
    In e (yielded (stream_loop P sessionsRepo sessionId ps msgs).1.1) ->
    In e (emitted P ps msgs) /\ is_end e = false /\ is_session_id_captured e = false.
Proof.
  induction msgs as [|[now msg] msgs IH]; intros ps; [intros []|].
  cbn [stream_loop emitted].
  destruct (hasTimedOut P ps now); [intros []|].
  destruct (process P ps now msg) as [ps1 [t|events]]; [intros []|].
  pose proof (handle_events_yields events e) as Hinner.
  destruct (handle_events sessionsRepo sessionId events) as [acts [t|]];
    cbn [fst] in *.
  - intros Hin. destruct (Hinner Hin) as (H1 & H2 & H3).
    split; [apply in_or_app; left; exact H1|split; assumption].
  - destruct (existsb is_end events).
    + intros Hin. destruct (Hinner Hin) as (H1 & H2 & H3).
      split; [apply in_or_app; left; exact H1|split; assumption].
    + specialize (IH ps1).
      destruct (stream_loop P sessionsRepo sessionId ps1 msgs) as [[acts' ps'] exit].
      cbn [fst] in *. rewrite yielded_app. intros Hin. apply in_app_iff in Hin.
      destruct Hin as [Hin|Hin].
      * destruct (Hinner Hin) as (H1 & H2 & H3).
        split; [apply in_or_app; left; exact H1|split; assumption].
      * destruct (IH Hin) as (H1 & H2 & H3).
        split; [apply in_or_app; right; exact H1|split; assumption].
Qed.
End Loop.

(** X15. Once the streaming loop has left (after an [end] event, an idle
    timeout, or a rejection of the processor or of the repository), nothing
    that follows in the raw stream is read: the call behaves the same
    whatever messages come after, and however the stream would have
    finished. *)
Theorem nothing_is_read_after_the_loop_has_left :
  forall (P : SDKMessageProcessor) (sessionsRepo : option SessionRepository)
         (sessionId : string) (existing : option string) (stderr : string)
         (t0 : Z) (msgs : list (Z * SDKMessage)) (acts : list Action)
         (ps : PState P) (exit : LoopExit),
    stream_loop P sessionsRepo sessionId
      (create P (streaming_options sessionId existing) t0) msgs
    = (acts, ps, exit) ->
    exit <> Exhausted ->
    forall rest e e',
      promptSessionStreaming P sessionsRepo sessionId existing stderr t0
        (mkStream (msgs ++ rest) e)
      = promptSessionStreaming P sessionsRepo sessionId existing stderr t0
          (mkStream msgs e').
Proof.
  intros P sessionsRepo sessionId existing stderr t0 msgs acts ps exit
         Hloop Hexit rest e e'.
  unfold promptSessionStreaming, streaming_options in *. cbn [items ending].
  rewrite (stream_loop_left P sessionsRepo sessionId msgs rest _ _ _ _ Hloop Hexit).
  rewrite Hloop. destruct exit; [congruence|reflexivity|reflexivity].
Qed.

Lemma nothing_is_read_after_the_loop_has_left_witness :
  promptSessionStreaming SpecProcessor (Some always_ok) "session-1" None "" 0
    (mkStream (sample_turn ++ late_message) (Throws AbortError))
  = promptSessionStreaming SpecProcessor (Some always_ok) "session-1" None "" 0
      (mkStream sample_turn Done).
Proof.
  apply (nothing_is_read_after_the_loop_has_left SpecProcessor (Some always_ok)
           "session-1" None "" 0 sample_turn
           [DbUpdate "session-1" "sdk-1";
            Yield (complete ASSISTANT [tool_block "t1" "Read"]
                     (Some [mkToolUse "t1" "Read"]));
            Yield (complete ASSISTANT [text_block "done"] None);
            Yield (result (Some (mkUsage (Some 5) (Some 7) None None)))]
           (mkSpecState 40 IDLE_TIMEOUT_MS 4 (Some "sdk-1") true) Ended);
    [reflexivity|discriminate].
Defined.

(** X16. The streaming call invents one event only: every event it yields
    is either the [stopped] of a cancellation or an event the processor
    handed over, and it is never an [end] or a [session_id_captured] event,
    whatever the processor and the repository. *)
Theorem yielded_events_come_from_the_processor :
  forall (P : SDKMessageProcessor) (sessionsRepo : option SessionRepository)
         (sessionId : string) (existing : option string) (stderr : string)
         (t0 : Z) (stream : RawStream) (e : ProcessedEvent),
    In e (yielded (promptSessionStreaming P sessionsRepo sessionId existing
                     stderr t0 stream).1) ->
    (e = stopped \/
     In e (emitted P (create P (streaming_options sessionId existing) t0)
             (items stream))) /\
    is_end e = false /\ is_session_id_captured e = false.
Proof.
  intros P sessionsRepo sessionId existing stderr t0 stream e.
  destruct (promptSessionStreaming_actions P sessionsRepo sessionId existing
              stderr t0 stream) as (tail & -> & Htail).
  rewrite yielded_app. intros Hin. apply in_app_iff in Hin.
  destruct Hin as [Hin|Hin].
  - destruct (stream_loop_yields P sessionsRepo sessionId _ e _ Hin)
      as (H1 & H2 & H3).
    split; [right; exact H1|split; assumption].
  - destruct Htail as [->| ->]; cbn in Hin; [destruct Hin|].
    destruct Hin as [<-|[]]. split; [left; reflexivity|split; reflexivity].
Qed.

Lemma yielded_events_come_from_the_processor_witness :
  is_end (result (Some (mkUsage (Some 5) (Some 7) None None))) = false /\
  is_session_id_captured (result (Some (mkUsage (Some 5) (Some 7) None None)))
  = false.
Proof.
  apply (yielded_events_come_from_the_processor SpecProcessor (Some always_ok)
           "session-1" None "" 0 (mkStream sample_turn Done)
           (result (Some (mkUsage (Some 5) (Some 7) None None)))).
  cbn. right. right. left. reflexivity.
Defined.

(** *** What the streaming call raises *)









(** *** The non-streaming result *)

Lemma last_usage_app (a b : list ProcessedEvent) :
  last_usage (a ++ b)
  = match last_usage b with Some u => Some u | None => last_usage a end.
Proof. unfold last_usage. rewrite omap_app. apply last_app. Qed.

Lemma collect_events_usage (events : list ProcessedEvent) :
  forall acc,
    (collect_events events acc).2
    = match last_usage (before_end events) with
      | Some u => Some u
      | None => acc.2
      end.
Proof.
  induction events as [|e events IH]; intros acc; [reflexivity|].
  assert (Hcons : forall e0 l,
             last_usage (e0 :: l)
             = match last_usage l with
               | Some u => Some u
               | None => usage_of e0
               end).
  { intros e0 l. change (e0 :: l) with ([e0] ++ l). rewrite last_usage_app.
    destruct (last_usage l); [reflexivity|].
    unfold last_usage. cbn. destruct (usage_of e0); reflexivity. }
  destruct e; cbn [collect_events is_end before_end];
    try (rewrite IH, Hcons; cbn [usage_of];
         destruct (last_usage (before_end events)); reflexivity);
    try reflexivity.
  - destruct (String.eqb role ASSISTANT); rewrite IH, Hcons; cbn [usage_of snd];
      destruct (last_usage (before_end events)); reflexivity.
  - destruct raw_sdk_message_usage; rewrite IH, Hcons; cbn [usage_of snd];
      destruct (last_usage (before_end events)); reflexivity.
Qed.

Lemma prompt_loop_collected (P : SDKMessageProcessor)
    (msgs : list (Z * SDKMessage)) :
  forall ps acc,
    (prompt_loop P ps msgs acc).1.1
    = acc.1 ++ flat_map entry_of (collected P ps msgs) /\
    (prompt_loop P ps msgs acc).1.2
    = match last_usage (collected P ps msgs) with
      | Some u => Some u
      | None => acc.2
      end.
Proof.
  induction msgs as [|[now msg] msgs IH]; intros ps acc.
  - cbn. rewrite app_nil_r. split; reflexivity.
  - cbn [prompt_loop collected].
    destruct (process P ps now msg) as [ps1 [t|events]].
    + cbn. rewrite app_nil_r. split; reflexivity.
    + destruct (IH ps1 (collect_events events acc)) as [Hm Hu].
      rewrite Hm, Hu, collect_events_messages, collect_events_usage.
      rewrite flat_map_app, last_usage_app, app_assoc.
      split; [reflexivity|].
      destruct (last_usage (collected P ps1 msgs)); reflexivity.
Qed.

(** X18. Whenever [promptSession] returns (the stream ended normally or
    in an abort), its messages are the [complete] events of the assistant
    among the events it looked at, in their order, and its token counts are
    those of the last [result] event that carried a usage (0 where there is
    none, or none was given): a later result replaces an earlier one, counts
    are not added up. *)
Theorem promptSession_reports_the_last_usage :
  forall (P : SDKMessageProcessor) (sessionId : string)
         (existing : option string) (t0 : Z) (stream : RawStream)
         (r : PromptResult),
    promptSession P sessionId existing t0 stream = inr r ->
    let events :=
      collected P (create P (mkOptions sessionId existing false IDLE_TIMEOUT_MS) t0)
        (items stream) in
    messages r = flat_map entry_of events /\
    inputTokens r = or0 (last_usage events ≫= input_tokens) /\
    outputTokens r = or0 (last_usage events ≫= output_tokens).
Proof.
  intros P sessionId existing t0 stream r. unfold promptSession.
  destruct (prompt_loop_collected P (items stream)
              (create P (mkOptions sessionId existing false IDLE_TIMEOUT_MS) t0)
              ([], None)) as [Hm Hu].
  destruct (prompt_loop P _ (items stream) ([], None)) as [acc t].
  cbn [fst snd app] in Hm, Hu.
  assert (Hr : prompt_result acc = r ->
               messages r
               = flat_map entry_of
                   (collected P
                      (create P (mkOptions sessionId existing false IDLE_TIMEOUT_MS) t0)
                      (items stream)) /\
               inputTokens r
               = or0 (last_usage
                        (collected P
                           (create P
                              (mkOptions sessionId existing false IDLE_TIMEOUT_MS) t0)
                           (items stream)) ≫= input_tokens) /\
               outputTokens r
               = or0 (last_usage
                        (collected P
                           (create P
                              (mkOptions sessionId existing false IDLE_TIMEOUT_MS) t0)
                           (items stream)) ≫= output_tokens)).
  { intros <-. unfold prompt_result. cbn [messages inputTokens outputTokens].
    rewrite Hm, Hu.
    destruct (last_usage _); split; try reflexivity; split; reflexivity. }
  destruct t as [t|].
  - destruct (isAbortError t); [|discriminate].
    intros H. injection H as Heq. exact (Hr Heq).
  - destruct (ending stream) as [|t].
    + intros H. injection H as Heq. exact (Hr Heq).
    + destruct (isAbortError t); [|discriminate].
      intros H. injection H as Heq. exact (Hr Heq).
Qed.

Lemma promptSession_reports_the_last_usage_witness :
  exists r,
    promptSession SpecProcessor "session-1" None 0
      (mkStream two_results (Throws AbortError)) = inr r /\
    messages r
    = [mkAssistantMessage [text_block "a"] None;
       mkAssistantMessage [text_block "b"] None] /\
    inputTokens r = 11 /\
    outputTokens r = 0.
Proof.
  eexists. split; [reflexivity|].
  apply (promptSession_reports_the_last_usage SpecProcessor "session-1" None 0
           (mkStream two_results (Throws AbortError))).
  reflexivity.
Defined.

End StreamingTraceProps.

(** ** MCP servers: what the repositories offer *)

Module McpOfferProps.
Import Js Mcp McpOffer McpProps.

Lemma NoDup_map_inj {A B : Type} (f : A -> B) (l : list A) (a b : A) :
  List.NoDup (map f l) -> In a l -> In b l -> f a = f b -> a = b.
Proof.
  induction l as [|x l IH]; [intros _ []|].
  cbn [map]. intros Hnd Ha Hb Hf. inversion Hnd as [|? ? Hx Hl]; subst.
  destruct Ha as [->|Ha], Hb as [->|Hb]; [reflexivity| | |exact (IH Hl Ha Hb Hf)].
  - exfalso. apply Hx. rewrite Hf. apply in_map. exact Hb.
  - exfalso. apply Hx. rewrite <- Hf. apply in_map. exact Ha.
Qed.

Lemma simple_resolve_keeps_id (ctx : list (string * string)) (s : MCPServer) :
  mcp_server_id (resolved_server (simple_resolveMcpServerTemplates s ctx))
  = mcp_server_id s.
Proof.
  unfold simple_resolveMcpServerTemplates.
  destruct (resolve_field ctx (url s)), (resolve_field ctx (auth s ≫= token)).
  reflexivity.
Qed.

Section Loop.
Variable TemplateContext : Type.
Variable resolve : MCPServer -> TemplateContext -> ResolveResult.
Variable ctx : TemplateContext.

Lemma getMcpServersForSession_answered (sessionId : string)
    (deps : MCPResolutionDeps) (sessionRepo : SessionMCPServerRepository)
    (serverRepo : MCPServerRepository) (globalServers : option (list MCPServer))
    (A : list MCPServer) :
  sessionMCPRepo deps = Some sessionRepo ->
  mcpServerRepo deps = Some serverRepo ->
  findAll serverRepo "global" true (forUserId deps) = inr globalServers ->
  listServers sessionRepo sessionId true = inr A ->
  getMcpServersForSession TemplateContext resolve ctx sessionId deps
  = spec_resolver TemplateContext resolve ctx (default [] globalServers) A.
Proof.
  intros Hs Hm HG HA.
  unfold getMcpServersForSession. rewrite Hs, Hm, HG, HA.
  rewrite !collect_dedupe. cbn [snd app].
  rewrite <- candidates_split.
  rewrite <- (app_nil_r (candidates _ A)) at 2.
  rewrite template_loop_spec, app_nil_r. reflexivity.
Qed.

Lemma candidates_offered (G A : list MCPServer) (e : MCPServerWithSource) :
  In e (candidates G A) -> In e (tag global G ++ tag session_assigned A).
Proof. intros He. apply dedupe_by_id_subset in He. tauto. Qed.

Lemma dedupe_by_id_length (l : list MCPServerWithSource) :
  forall seen, (length (dedupe_by_id seen l) <= length l)%nat.
Proof.
  induction l as [|x l IH]; intros seen; cbn [dedupe_by_id length]; [lia|].
  destruct (decide (mcp_server_id (server x) ∈ seen)).
  - specialize (IH seen). lia.
  - cbn [length]. specialize (IH ({[mcp_server_id (server x)]} ∪ seen)). lia.
Qed.

(** X19. The resolver never returns more servers than the repositories
    offered, and every server it returns stems from an offered one with
    the same source tag: either that server as it is, when it has no
    template, or its valid resolution. When a repository is missing or a
    call rejects, nothing is offered and nothing is returned. *)
Theorem getMcpServersForSession_returns_offered_servers :
  forall (sessionId : string) (deps : MCPResolutionDeps),
    let servers :=
      getMcpServersForSession TemplateContext resolve ctx sessionId deps in
    (length servers <= length (offered sessionId deps))%nat /\
    (forall e, In e servers ->
       exists o,
         In o (offered sessionId deps) /\ source e = source o /\
         ((hasTemplates (server o) = false /\ e = o) \/
          (hasTemplates (server o) = true /\
           isValid (resolve (server o) ctx) = true /\
           server e = resolved_server (resolve (server o) ctx)))).
Proof.
  intros sessionId deps. cbv zeta.
  destruct (sessionMCPRepo deps) as [sessionRepo|] eqn:Hs;
    [|unfold getMcpServersForSession, offered; rewrite Hs;
      split; [cbn; lia|intros e []]].
  destruct (mcpServerRepo deps) as [serverRepo|] eqn:Hm;
    [|unfold getMcpServersForSession, offered; rewrite Hs, Hm;
      split; [cbn; lia|intros e []]].
  destruct (findAll serverRepo "global" true (forUserId deps))
    as [t|globalServers] eqn:HG;
    [unfold getMcpServersForSession, offered; rewrite Hs, Hm, HG;
     split; [cbn; lia|intros e []]|].
  destruct (listServers sessionRepo sessionId true) as [t|A] eqn:HA;
    [unfold getMcpServersForSession, offered; rewrite Hs, Hm, HG, HA;
     split; [cbn; lia|intros e []]|].
  rewrite (getMcpServersForSession_answered sessionId deps _ _ _ _ Hs Hm HG HA).
  unfold offered. rewrite Hs, Hm, HG, HA.
  unfold spec_resolver, kept. split.
  - rewrite length_map.
    etransitivity; [apply List.filter_length_le|]. apply dedupe_by_id_length.
  - intros e He. apply in_map_iff in He. destruct He as (o & <- & Ho).
    apply filter_In in Ho. destruct Ho as [Ho Hk].
    exists o. split; [apply candidates_offered, Ho|].
    unfold required_unresolved in Hk. unfold resolve_entry.
    destruct (hasTemplates (server o)); cbn [andb negb] in Hk.
    + split; [reflexivity|]. right. split; [reflexivity|].
      split; [|reflexivity]. apply negb_true_iff in Hk.
      apply negb_false_iff in Hk. exact Hk.
    + split; [reflexivity|]. left. split; reflexivity.
Qed.

(** X20. With both repositories answering and a template resolver that
    leaves the id of a server alone, the fate of a candidate is decided by
    the validity of its resolution only: a candidate that has no template,
    or whose resolution is valid, is returned with its resolved fields,
    even when optional fields stayed unresolved; and when the resolution of
    a candidate is invalid, its id does not appear in the result at all, not
    even through a session-assigned server of the same id. *)
Theorem invalid_resolution_drops_the_id :
  forall (sessionId : string) (deps : MCPResolutionDeps)
         (sessionRepo : SessionMCPServerRepository)
         (serverRepo : MCPServerRepository)
         (G A : list MCPServer) (e : MCPServerWithSource),
    sessionMCPRepo deps = Some sessionRepo ->
    mcpServerRepo deps = Some serverRepo ->
    findAll serverRepo "global" true (forUserId deps) = inr (Some G) ->
    listServers sessionRepo sessionId true = inr A ->
    (forall s, mcp_server_id (resolved_server (resolve s ctx)) = mcp_server_id s) ->
    In e (candidates G A) ->
    let servers :=
      getMcpServersForSession TemplateContext resolve ctx sessionId deps in
    (required_unresolved TemplateContext resolve ctx (server e) = false ->
     In (resolve_entry TemplateContext resolve ctx e) servers) /\
    (required_unresolved TemplateContext resolve ctx (server e) = true ->
     ~ In (entry_id e) (map entry_id servers)).
Proof.
  intros sessionId deps sessionRepo serverRepo G A e Hs Hm HG HA Hid He.
  cbv zeta.
  rewrite (getMcpServersForSession_answered sessionId deps _ _ _ _ Hs Hm HG HA).
  cbn [default]. unfold spec_resolver, kept. split.
  - intros Hk. apply in_map. apply filter_In. split; [exact He|].
    rewrite Hk. reflexivity.
  - intros Hk Hin. apply in_map_iff in Hin. destruct Hin as (r & Hr & Hin).
    apply in_map_iff in Hin. destruct Hin as (k & <- & Hkept).
    apply filter_In in Hkept. destruct Hkept as [Hcand Hkeep].
    rewrite (resolve_entry_id _ resolve ctx k Hid) in Hr.
    assert (k = e) as ->.
    { apply (NoDup_map_inj entry_id (candidates G A));
        [apply dedupe_by_id_NoDup|assumption|assumption|exact Hr]. }
    rewrite Hk in Hkeep. discriminate.
Qed.

End Loop.

Lemma getMcpServersForSession_returns_offered_servers_witness :
  (length
     (getMcpServersForSession _ simple_resolveMcpServerTemplates [] "session-1"
        scenario_deps)
   <= length (offered "session-1" scenario_deps))%nat.
Proof.
  destruct (getMcpServersForSession_returns_offered_servers _
              simple_resolveMcpServerTemplates [] "session-1" scenario_deps)
    as [Hlength _].
  exact Hlength.
Defined.

Lemma invalid_resolution_drops_the_id_witness :
  In (mkWithSource
        (mkServer "5" "server-5" "http" "global" true (Some "https://mcp.test/mcp")
           None (Some (mkAuth (Some "{{TOKEN}}") None None None)))
        global)
     (getMcpServersForSession _ simple_resolveMcpServerTemplates
        [("MCP_URL", "https://mcp.test/mcp")] "session-1" token_deps) /\
  ~ In "2"
      (map entry_id
         (getMcpServersForSession _ simple_resolveMcpServerTemplates []
            "session-1" scenario_deps)).
Proof.
  split.
  - destruct (invalid_resolution_drops_the_id _ simple_resolveMcpServerTemplates
                [("MCP_URL", "https://mcp.test/mcp")] "session-1" token_deps
                (mkSessionRepo (fun _ _ => inr [plain_server "7" "session"]))
                (mkMcpRepo (fun _ _ _ => inr (Some [token_server "5"])))
                [token_server "5"] [plain_server "7" "session"]
                (mkWithSource (token_server "5") global)
                eq_refl eq_refl eq_refl eq_refl
                (simple_resolve_keeps_id [("MCP_URL", "https://mcp.test/mcp")])
                (or_introl eq_refl)) as [Hkeep _].
    exact (Hkeep eq_refl).
  - destruct (invalid_resolution_drops_the_id _ simple_resolveMcpServerTemplates
                [] "session-1" scenario_deps
                (mkSessionRepo (fun _ _ => inr scenario_session))
                (mkMcpRepo (fun _ _ _ => inr (Some scenario_global)))
                scenario_global scenario_session
                (mkWithSource (templated_server "2" "global" "https://{{HOST}}/mcp")
                   global)
                eq_refl eq_refl eq_refl eq_refl
                (simple_resolve_keeps_id [])
                (or_intror (or_introl eq_refl))) as [_ Hdrop].
    exact (Hdrop eq_refl).
Defined.

End McpOfferProps.

(** ** The localStorage storage adapter *)

Module StorageProps.
Import Js Storage.

(** *** Storage keys *)

Lemma append_inj (p a b : string) : p +:+ a = p +:+ b -> a = b.
Proof.
  induction p as [|c p IH]; simpl; intros H; [exact H|].
  injection H as H. exact (IH H).
Qed.

Lemma session_key_inj (a b : string) :
  STORAGE_KEYS_session a = STORAGE_KEYS_session b -> a = b.
Proof.
  unfold STORAGE_KEYS_session. intros H.
  apply append_inj in H. apply append_inj in H. exact H.
Qed.

Lemma session_key_not_task (a b : string) :
  STORAGE_KEYS_session a <> STORAGE_KEYS_task b.
Proof.
  unfold STORAGE_KEYS_session, STORAGE_KEYS_task. intros H.
  apply append_inj in H. simpl in H. discriminate.
Qed.

Lemma session_key_not_messages (a b : string) :
  STORAGE_KEYS_session a <> STORAGE_KEYS_messages b.
Proof.
  unfold STORAGE_KEYS_session, STORAGE_KEYS_messages. intros H.
  apply append_inj in H. simpl in H. discriminate.
Qed.

Section Codec.
Variable JSON_parse : string -> option Value.
Variable JSON_stringify : Value -> string.

(** *** Reading what was written *)

Lemma readJson_writeJson (b : Browser) (key : string) (v fallback : Value) :
  readable b -> stores JSON_parse JSON_stringify b key v ->
  readJson JSON_parse (writeJson JSON_stringify b key v) key fallback = v.
Proof.
  intros [Hw Hg] (Hs & Hne & Hrt). unfold readJson, writeJson.
  rewrite Hw, Hs. cbn [negb has_window getItem_throws items].
  rewrite Hg. rewrite lookup_insert_eq, Hne, Hrt. reflexivity.
Qed.

Lemma readJson_writeJson_ne (b : Browser) (key key' : string)
    (v fallback : Value) :
  key <> key' ->
  readJson JSON_parse (writeJson JSON_stringify b key v) key' fallback
  = readJson JSON_parse b key' fallback.
Proof.
  intros Hne. unfold readJson, writeJson.
  destruct (has_window b) eqn:Hw; cbn [negb]; [|rewrite Hw; reflexivity].
  destruct (setItem_throws b key (JSON_stringify v));
    [rewrite Hw; reflexivity|].
  cbn [negb has_window getItem_throws items].
  rewrite lookup_insert_ne by exact Hne. reflexivity.
Qed.

Lemma writeJson_writeJson (b : Browser) (key : string) (v : Value) :
  writeJson JSON_stringify (writeJson JSON_stringify b key v) key v
  = writeJson JSON_stringify b key v.
Proof.
  unfold writeJson.
  destruct (has_window b) eqn:Hw; cbn [negb]; [|rewrite Hw; reflexivity].
  destruct (setItem_throws b key (JSON_stringify v)) eqn:Hs;
    [rewrite Hw, Hs; reflexivity|].
  cbn [negb has_window getItem_throws items setItem_throws dispatched].
  rewrite Hs, insert_insert_eq. reflexivity.
Qed.

Lemma writeJson_dispatched (b : Browser) (key : string) (v : Value) :
  dispatched (writeJson JSON_stringify b key v) = dispatched b.
Proof.
  unfold writeJson.
  destruct (negb (has_window b)); [reflexivity|].
  destruct (setItem_throws b key (JSON_stringify v)); reflexivity.
Qed.

Lemma writeJson_readable (b : Browser) (key : string) (v : Value) :
  readable b -> readable (writeJson JSON_stringify b key v).
Proof.
  intros [Hw Hg]. unfold writeJson, readable. rewrite Hw. cbn [negb].
  destruct (setItem_throws b key (JSON_stringify v)); cbn; auto.
Qed.

Lemma readJson_dispatchEvent (b : Browser) (type key : string)
    (detail fallback : Value) :
  readJson JSON_parse (dispatchEvent b type detail) key fallback
  = readJson JSON_parse b key fallback.
Proof.
  unfold dispatchEvent. destruct (has_window b) eqn:Hw; [|reflexivity].
  unfold readJson. cbn [has_window getItem_throws items]. rewrite Hw.
  reflexivity.
Qed.

Lemma merge_record_lookup (existing : Value) (data : gmap string Value)
    (idName id now : string) :
  idName <> "updated_at" ->
  merge_record existing data idName id now !! idName = Some (VStr id) /\
  merge_record existing data idName id now !! "updated_at" = Some (VStr now) /\
  forall k, k <> idName -> k <> "updated_at" ->
    merge_record existing data idName id now !! k
    = match data !! k with
      | Some v => Some v
      | None => own_properties existing !! k
      end.
Proof.
  intros Hid. unfold merge_record. split; [|split].
  - rewrite lookup_insert_ne by congruence. apply lookup_insert_eq.
  - apply lookup_insert_eq.
  - intros k Hk1 Hk2. rewrite !lookup_insert_ne by congruence.
    rewrite lookup_union.
    destruct (data !! k), (own_properties existing !! k); reflexivity.
Qed.

(** X21. On a page whose storage can be read and takes the write,
    [findById] after [update] returns the record [update] returned: it
    carries the id of the session and the time of the update, every field
    of [data] (so the [sdk_session_id] the prompt service hands over), and
    of the record that was there every field [data] does not replace. *)
Theorem update_then_findById :
  forall (b : Browser) (sessionId : string) (data : gmap string Value)
         (created now : string),
    let run :=
      SessionsRepository_update JSON_parse JSON_stringify b sessionId data
        created now in
    readable b ->
    stores JSON_parse JSON_stringify b (STORAGE_KEYS_session sessionId) run.2 ->
    findById JSON_parse run.1 sessionId = run.2 /\
    exists fields,
      run.2 = VObj fields /\
      fields !! "session_id" = Some (VStr sessionId) /\
      fields !! "updated_at" = Some (VStr now) /\
      forall k, k <> "session_id" -> k <> "updated_at" ->
        fields !! k
        = match data !! k with
          | Some v => Some v
          | None =>
              own_properties (session_or_new JSON_parse b sessionId created) !! k
          end.
Proof.
  intros b sessionId data created now run Hb Hs. subst run.
  unfold SessionsRepository_update in *. cbn [fst snd] in *. split.
  - unfold findById. apply readJson_writeJson; assumption.
  - eexists. split; [reflexivity|].
    apply merge_record_lookup. discriminate.
Qed.

(** X22. An update of one session leaves every other session, every
    task and every message list as they were, and dispatches no event;
    and when there is no [window], or [setItem] throws, the update changes
    nothing at all, although it still returns the merged record. *)
Theorem update_touches_one_session :
  forall (b : Browser) (sessionId : string) (data : gmap string Value)
         (created now : string),
    let run :=
      SessionsRepository_update JSON_parse JSON_stringify b sessionId data
        created now in
    (forall other, other <> sessionId ->
       findById JSON_parse run.1 other = findById JSON_parse b other) /\
    (forall taskId,
       TasksService_get JSON_parse run.1 taskId
       = TasksService_get JSON_parse b taskId) /\
    (forall s, findBySessionId JSON_parse run.1 s = findBySessionId JSON_parse b s) /\
    dispatched run.1 = dispatched b /\
    (has_window b = false \/
     setItem_throws b (STORAGE_KEYS_session sessionId) (JSON_stringify run.2)
     = true ->
     run.1 = b).
Proof.
  intros b sessionId data created now run. subst run.
  unfold SessionsRepository_update. cbn [fst snd].
  split; [|split; [|split; [|split]]].
  - intros other Hne. unfold findById. apply readJson_writeJson_ne.
    intros H. apply session_key_inj in H. congruence.
  - intros taskId. unfold TasksService_get.
    rewrite readJson_writeJson_ne by apply session_key_not_task. reflexivity.
  - intros s. unfold findBySessionId. apply readJson_writeJson_ne.
    apply session_key_not_messages.
  - apply writeJson_dispatched.
  - intros Hlost.
    assert (Hsame : writeJson JSON_stringify b (STORAGE_KEYS_session sessionId)
                      (VObj (merge_record
                               (session_or_new JSON_parse b sessionId created)
                               data "session_id" sessionId now)) = b).
    { unfold writeJson. destruct Hlost as [Hw|Hs].
      - rewrite Hw. reflexivity.
      - destruct (negb (has_window b)); [reflexivity|]. rewrite Hs. reflexivity. }
    exact Hsame.
Qed.

(** *** Messages *)

Lemma findIndex_from_found (message : gmap string Value) (id : Value)
    (elements : list Value) :
  strict_equal (field message "message_id") id = true ->
  forall i j,
    findIndex_from i elements id = inr (Some j) ->
    (i <= j)%nat /\ (j - i < length elements)%nat /\
    findIndex_from i (<[(j - i)%nat := VObj message]> elements) id
    = inr (Some j).
Proof.
  intros Hid. induction elements as [|m elements IH]; intros i j;
    [discriminate|].
  cbn [findIndex_from].
  destruct (get_field m "message_id") as [t|v] eqn:Hm; [discriminate|].
  destruct (strict_equal v id) eqn:Hv.
  - intros H. injection H as <-. rewrite Nat.sub_diag.
    split; [lia|]. split; [cbn; lia|].
    cbn [insert list_insert findIndex_from get_field]. unfold field in Hid.
    rewrite Hid. reflexivity.
  - intros H. destruct (IH _ _ H) as (Hle & Hlt & Hfound).
    split; [lia|]. split; [cbn [length]; lia|].
    replace (j - i)%nat with (S (j - S i)) by lia.
    cbn [insert list_insert findIndex_from]. rewrite Hm, Hv. exact Hfound.
Qed.

Lemma findIndex_from_missing (message : gmap string Value) (id : Value)
    (elements : list Value) :
  strict_equal (field message "message_id") id = true ->
  forall i,
    findIndex_from i elements id = inr None ->
    findIndex_from i (elements ++ [VObj message]) id
    = inr (Some (i + length elements)%nat).
Proof.
  intros Hid. induction elements as [|m elements IH]; intros i.
  - intros _. cbn [app findIndex_from get_field length]. unfold field in Hid.
    rewrite Hid, Nat.add_0_r. reflexivity.
  - cbn [findIndex_from app length].
    destruct (get_field m "message_id") as [t|v]; [discriminate|].
    destruct (strict_equal v id); [discriminate|].
    intros H. rewrite (IH _ H). do 2 f_equal. lia.
Qed.

Lemma findIndex_from_returns (id : Value) (elements : list Value) :
  Forall (fun m => nullish m = false) elements ->
  forall i, exists r, findIndex_from i elements id = inr r.
Proof.
  induction 1 as [|m elements Hm _ IH]; intros i; [eexists; reflexivity|].
  cbn [findIndex_from].
  destruct m; try discriminate; cbn [get_field];
    match goal with
    | |- context [strict_equal ?v id] => destruct (strict_equal v id)
    end; eauto.
Qed.

(** Storing a message a second time changes nothing. *)
Lemma upsert_again (elements elements' : list Value)
    (message : gmap string Value) :
  strict_equal (field message "message_id") (field message "message_id") = true ->
  upsert (VArr elements) message = inr elements' ->
  upsert (VArr elements') message = inr elements' /\
  In (VObj message) elements' /\
  (elements' = elements ++ [VObj message] \/ length elements' = length elements).
Proof.
  intros Hid. unfold upsert.
  destruct (findIndex_from 0 elements (field message "message_id"))
    as [t|[idx|]] eqn:Hfind; [discriminate| |].
  - intros H. injection H as <-.
    destruct (findIndex_from_found message _ elements Hid _ _ Hfind)
      as (_ & Hlt & Hagain).
    rewrite Nat.sub_0_r in Hlt, Hagain. rewrite Hagain.
    rewrite list_insert_insert_eq. split; [reflexivity|].
    split; [|right; apply length_insert].
    apply list_elem_of_In, (list_elem_of_lookup_2 _ idx).
    apply list_lookup_insert_eq. exact Hlt.
  - intros H. injection H as <-.
    rewrite (findIndex_from_missing message _ elements Hid _ Hfind).
    cbn [Nat.add].
    replace (length elements) with (length elements + 0)%nat at 1 by lia.
    rewrite insert_app_r. cbn [insert list_insert].
    split; [reflexivity|]. split; [|left; reflexivity].
    apply in_or_app. right. left. reflexivity.
Qed.

(** X23. The repository's [create] is an upsert by [message_id]. On a
    readable page whose stored list for the session is an array without
    [null] entries, and whose storage takes the write, [create] resolves
    with the message; [findBySessionId] then returns a list that holds the
    message and is either the old list with the message appended or a list
    of the old length (the first entry of that id replaced); and creating
    the same message again leaves the browser as it is. *)
Theorem create_is_an_upsert :
  forall (b : Browser) (message : gmap string Value) (mid sid : string)
         (elements : list Value),
    readable b ->
    message !! "message_id" = Some (VStr mid) ->
    message !! "session_id" = Some (VStr sid) ->
    findBySessionId JSON_parse b sid = VArr elements ->
    Forall (fun m => nullish m = false) elements ->
    (forall elements',
       upsert (VArr elements) message = inr elements' ->
       stores JSON_parse JSON_stringify b (STORAGE_KEYS_messages sid) (VArr elements')) ->
    exists b1 elements',
      MessagesRepository_create JSON_parse JSON_stringify b message
      = (b1, inr (VObj message)) /\
      findBySessionId JSON_parse b1 sid = VArr elements' /\
      In (VObj message) elements' /\
      (elements' = elements ++ [VObj message] \/
       length elements' = length elements) /\
      MessagesRepository_create JSON_parse JSON_stringify b1 message
      = (b1, inr (VObj message)).
Proof.
  intros b message mid sid elements Hb Hmid Hsid Hread Hnonnull Hstores.
  assert (Hid : strict_equal (field message "message_id")
                  (field message "message_id") = true).
  { unfold field. rewrite Hmid. cbn. apply String.eqb_refl. }
  assert (Hkey : to_string (field message "session_id") = sid).
  { unfold field. rewrite Hsid. reflexivity. }
  destruct (findIndex_from_returns (field message "message_id") elements
              Hnonnull 0%nat) as (r & Hr).
  assert (Hup : exists elements', upsert (VArr elements) message = inr elements').
  { unfold upsert. rewrite Hr. destruct r; eauto. }
  destruct Hup as (elements' & Hup).
  destruct (upsert_again elements elements' message Hid Hup)
    as (Hagain & Hin & Hshape).
  pose proof (Hstores _ Hup) as Hs.
  unfold findBySessionId in Hread.
  exists (writeJson JSON_stringify b (STORAGE_KEYS_messages sid) (VArr elements')).
  exists elements'.
  unfold MessagesRepository_create. rewrite Hkey, Hread, Hup.
  split; [reflexivity|]. split; [|split; [exact Hin|split; [exact Hshape|]]].
  - unfold findBySessionId. apply readJson_writeJson; assumption.
  - rewrite readJson_writeJson by assumption. rewrite Hagain.
    rewrite writeJson_writeJson. reflexivity.
Qed.


(** *** Tasks *)

(** X25. On a readable page whose storage takes the write, [get] after
    [patch] resolves with the record [patch] returned. That record carries
    the id [patch] was called with, whatever [task_id] the data name, and the
    time of the patch; and the event [freely:task:updated] with that record
    is the last one dispatched. *)
Theorem patch_then_get :
  forall (b : Browser) (id : string) (data : gmap string Value)
         (created now : string),
    let run :=
      TasksService_patch JSON_parse JSON_stringify b id data created now in
    readable b ->
    stores JSON_parse JSON_stringify b (STORAGE_KEYS_task id) run.2 ->
    TasksService_get JSON_parse run.1 id = inr run.2 /\
    get_field run.2 "task_id" = inr (VStr id) /\
    get_field run.2 "updated_at" = inr (VStr now) /\
    dispatched run.1 = dispatched b ++ [("freely:task:updated", run.2)].
Proof.
  intros b id data created now run Hb Hs. subst run.
  unfold TasksService_patch in *. cbn [fst snd] in *.
  set (existing :=
         if nullish (readJson JSON_parse b (STORAGE_KEYS_task id) VNull)
         then _ else _) in *.
  set (updated := VObj (merge_record existing data "task_id" id now)) in *.
  destruct (merge_record_lookup existing data "task_id" id now)
    as (Hid & Hnow & _); [discriminate|].
  split; [|split; [|split]].
  - unfold TasksService_get.
    rewrite readJson_dispatchEvent, readJson_writeJson by assumption.
    reflexivity.
  - subst updated. cbn [get_field]. rewrite Hid. reflexivity.
  - subst updated. cbn [get_field]. rewrite Hnow. reflexivity.
  - unfold dispatchEvent.
    destruct (writeJson_readable b (STORAGE_KEYS_task id) updated Hb) as [-> _].
    cbn [dispatched]. rewrite writeJson_dispatched. reflexivity.
Qed.

(** *** Ensuring a session *)

(** X26. [ensureSession] never replaces a record. On a readable page
    whose storage takes the write of a new record, once a session has been
    ensured, ensuring it again, with whatever tool type and at whatever
    time, returns the very record of the first call and leaves the browser
    as it is. *)
Theorem ensureSession_keeps_the_first_record :
  forall (b : Browser) (sessionId toolType created now : string),
    let run :=
      ensureSession JSON_parse JSON_stringify b sessionId toolType created now in
    readable b ->
    (truthy (findById JSON_parse b sessionId) = false ->
     stores JSON_parse JSON_stringify b (STORAGE_KEYS_session sessionId) run.2) ->
    findById JSON_parse run.1 sessionId = run.2 /\
    forall toolType' created' now',
      ensureSession JSON_parse JSON_stringify run.1 sessionId toolType'
        created' now'
      = run.
Proof.
  intros b sessionId toolType created now run Hb Hs. subst run.
  unfold ensureSession in *. unfold findById in *.
  destruct (truthy (readJson JSON_parse b (STORAGE_KEYS_session sessionId) VNull)) eqn:Ht.
  - cbn [fst snd]. split; [reflexivity|]. intros. rewrite Ht. reflexivity.
  - cbn [fst snd] in *. specialize (Hs eq_refl).
    rewrite readJson_writeJson by assumption.
    split; [reflexivity|]. intros. reflexivity.
Qed.

(** X29. A write that storage refuses is still announced. When
    [setItem] throws on a page with a [window], the sessions service's
    [patch] swallows the failure: nothing is stored, [findById] answers as
    before, and yet the event [freely:session:updated] is dispatched with
    the merged record, which [patch] also returns. *)
Theorem refused_patch_is_still_announced :
  forall (b : Browser) (id : string) (data : gmap string Value)
         (created now : string),
    let run :=
      SessionsService_patch JSON_parse JSON_stringify b id data created now in
    has_window b = true ->
    setItem_throws b (STORAGE_KEYS_session id) (JSON_stringify run.2) = true ->
    items run.1 = items b /\
    findById JSON_parse run.1 id = findById JSON_parse b id /\
    dispatched run.1 = dispatched b ++ [("freely:session:updated", run.2)] /\
    get_field run.2 "session_id" = inr (VStr id).
Proof.
  intros b id data created now run Hw Hs. subst run.
  unfold SessionsService_patch in *. cbn [fst snd] in *.
  set (updated := VObj (merge_record (session_or_new JSON_parse b id created)
                          data "session_id" id now)) in *.
  assert (Hlost : writeJson JSON_stringify b (STORAGE_KEYS_session id) updated = b).
  { unfold writeJson. rewrite Hw, Hs. reflexivity. }
  rewrite Hlost. split; [|split; [|split]].
  - unfold dispatchEvent. rewrite Hw. reflexivity.
  - unfold findById. apply readJson_dispatchEvent.
  - unfold dispatchEvent. rewrite Hw. reflexivity.
  - subst updated. cbn [get_field].
    destruct (merge_record_lookup (session_or_new JSON_parse b id created) data
                "session_id" id now) as (Hid & _); [discriminate|].
    rewrite Hid. reflexivity.
Qed.

End Codec.

(** *** Provider variables *)

Lemma provider_key_not_providers (name : string) :
  PROVIDER_VAR_PREFIX +:+ name <> "curl_custom_ai_providers".
Proof. unfold PROVIDER_VAR_PREFIX. simpl. discriminate. Qed.

(** X27. On a readable page whose storage takes the write, a provider
    variable that was set to a non-empty text is read back as that text,
    whatever the custom providers hold, and the variables of other names
    read as before. *)
Theorem setProviderVariable_then_get :
  forall (scanProviders : string -> string -> option string)
         (b : Browser) (name value : string),
    readable b ->
    setItem_throws b (PROVIDER_VAR_PREFIX +:+ name) value = false ->
    value <> "" ->
    getProviderVariable scanProviders (setProviderVariable b name value) name
    = Some value /\
    forall other, other <> name ->
      getProviderVariable scanProviders (setProviderVariable b name value) other
      = getProviderVariable scanProviders b other.
Proof.
  intros scanProviders b name value [Hw Hg] Hs Hne.
  unfold getProviderVariable, setProviderVariable. rewrite Hw, Hs.
  cbn [negb has_window getItem_throws items]. rewrite Hg. split.
  - rewrite lookup_insert_eq.
    destruct (String.eqb value "") eqn:He; [|reflexivity].
    apply String.eqb_eq in He. contradiction.
  - intros other Hother.
    assert (Hk : PROVIDER_VAR_PREFIX +:+ name <> PROVIDER_VAR_PREFIX +:+ other).
    { intros H. apply append_inj in H. congruence. }
    rewrite !lookup_insert_ne
      by (try exact Hk; apply provider_key_not_providers).
    reflexivity.
Qed.

(** *** The examples *)

Lemma update_then_findById_witness :
  get_field
    (findById flat_parse
       (SessionsRepository_update flat_parse flat_stringify fresh_page "s1"
          {[ "sdk_session_id" := VStr "sdk-1" ]} "t0" "t1").1 "s1")
    "sdk_session_id"
  = inr (VStr "sdk-1").
Proof.
  destruct (update_then_findById flat_parse flat_stringify fresh_page "s1"
              {[ "sdk_session_id" := VStr "sdk-1" ]} "t0" "t1") as [Hfind _].
  - split; reflexivity.
  - split; [reflexivity|]. split; vm_compute; reflexivity.
  - rewrite Hfind. reflexivity.
Defined.

Lemma create_is_an_upsert_witness :
  exists b1 elements',
    MessagesRepository_create flat_parse flat_stringify page_with_message
      (sample_message "m1" "hello")
    = (b1, inr (VObj (sample_message "m1" "hello"))) /\
    findBySessionId flat_parse b1 "s1" = VArr elements' /\
    In (VObj (sample_message "m1" "hello")) elements' /\
    (elements' = [VObj (sample_message "m1" "hi")]
                 ++ [VObj (sample_message "m1" "hello")] \/
     length elements' = length [VObj (sample_message "m1" "hi")]) /\
    MessagesRepository_create flat_parse flat_stringify b1
      (sample_message "m1" "hello")
    = (b1, inr (VObj (sample_message "m1" "hello"))).
Proof.
  apply (create_is_an_upsert flat_parse flat_stringify page_with_message
           (sample_message "m1" "hello") "m1" "s1"
           [VObj (sample_message "m1" "hi")]).
  - split; reflexivity.
  - reflexivity.
  - reflexivity.
  - vm_compute. reflexivity.
  - repeat constructor.
  - intros elements' Hup. vm_compute in Hup. injection Hup as <-.
    split; [reflexivity|]. split; vm_compute; reflexivity.
Defined.


Lemma patch_then_get_witness :
  TasksService_get flat_parse
    (TasksService_patch flat_parse flat_stringify fresh_page "task-1"
       {[ "task_id" := VStr "task-2"; "status" := VStr "completed" ]}
       "t0" "t1").1 "task-1"
  = inr (VObj (list_to_map
                 [("task_id", VStr "task-1"); ("session_id", VStr "");
                  ("status", VStr "completed"); ("created_at", VStr "t0");
                  ("updated_at", VStr "t1")])).
Proof.
  destruct (patch_then_get flat_parse flat_stringify fresh_page "task-1"
              {[ "task_id" := VStr "task-2"; "status" := VStr "completed" ]}
              "t0" "t1") as [Hget _].
  - split; reflexivity.
  - split; [reflexivity|]. split; vm_compute; reflexivity.
  - rewrite Hget. vm_compute. reflexivity.
Defined.

Lemma ensureSession_keeps_the_first_record_witness :
  ensureSession flat_parse flat_stringify
    (ensureSession flat_parse flat_stringify fresh_page "s1" "claude-code"
       "t0" "t0").1 "s1" "codex" "t5" "t5"
  = ensureSession flat_parse flat_stringify fresh_page "s1" "claude-code"
      "t0" "t0".
Proof.
  destruct (ensureSession_keeps_the_first_record flat_parse flat_stringify
              fresh_page "s1" "claude-code" "t0" "t0") as [_ Hagain].
  - split; reflexivity.
  - intros _. split; [reflexivity|]. split; vm_compute; reflexivity.
  - apply Hagain.
Defined.

Lemma refused_patch_is_still_announced_witness :
  findById flat_parse
    (SessionsService_patch flat_parse flat_stringify full_page "s1"
       {[ "sdk_session_id" := VStr "sdk-1" ]} "t0" "t1").1 "s1"
  = VNull /\
  length
    (dispatched
       (SessionsService_patch flat_parse flat_stringify full_page "s1"
          {[ "sdk_session_id" := VStr "sdk-1" ]} "t0" "t1").1)
  = 1%nat.
Proof.
  destruct (refused_patch_is_still_announced flat_parse flat_stringify
              full_page "s1" {[ "sdk_session_id" := VStr "sdk-1" ]} "t0" "t1"
              eq_refl eq_refl) as (_ & Hfind & Hevents & _).
  split; [rewrite Hfind; reflexivity|rewrite Hevents; reflexivity].
Defined.

Lemma setProviderVariable_then_get_witness :
  getProviderVariable (fun _ _ => None)
    (setProviderVariable fresh_page "ANTHROPIC_API_KEY" "sk-1")
    "ANTHROPIC_API_KEY"
  = Some "sk-1".
Proof.
  destruct (setProviderVariable_then_get (fun _ _ => None) fresh_page
              "ANTHROPIC_API_KEY" "sk-1") as [Hget _].
  - split; reflexivity.
  - reflexivity.
  - discriminate.
  - exact Hget.
Defined.

End StorageProps.
